(** * Mitt: a tiny functional event emitter

    A shallow embedding of [src/index.ts] and the verification of its
    registration, removal and dispatch behaviour.

    The emitter owns one JavaScript [Map] from event types to arrays of
    handlers.  Arrays are mutable objects with identity: [handlers.push]
    and [handlers.splice] change an array in place, while
    [all.set(type, [])] installs a new array.  The model therefore keeps a
    store of arrays next to the map, so that two keys may share one array
    (a caller may seed the emitter with such a map).

    Handlers are the callers' functions.  A handler is modelled by its
    identity (what [indexOf] compares) together with a behaviour [run],
    which is an arbitrary transformer of the whole state that either
    returns or throws: a handler may call [on], [off] and [emit] itself,
    or change the [Map] directly.  Handlers are taken to terminate.
    Everything proved of [emit] holds for every behaviour, unless a
    theorem restricts it explicitly.  The calls [emit] makes itself are
    recorded, in order, as pairs of a handler and its arguments. *)

From stdpp Require Import gmap strings list fin_maps.
From Stdlib Require Import ZArith Lia.

Module Mitt.

(** ** Identities *)

(** The identity of a handler function (compared with [===] by [indexOf]). *)
Definition handler := nat.

(** An event type: a key of the [Map]. *)
Definition key := string.

(** The identity of an array object. *)
Definition loc := positive.

(** The reserved key under which wildcard handlers are stored. *)
Definition wildcard : key := "*"%string.

(** ** The array primitives the emitter uses *)

(** [a.indexOf(h)], scanning from [i]: the index of the first element
    identical to [h], or [-1]. *)
Fixpoint indexOf_from (h : handler) (i : Z) (a : list handler) : Z :=
  match a with
  | [] => (-1)%Z
  | x :: a' => if decide (x = h) then i else indexOf_from h (i + 1)%Z a'
  end.

Definition indexOf (h : handler) (a : list handler) : Z := indexOf_from h 0%Z a.

(** [n >>> 0]: the conversion of [n] to an unsigned 32-bit integer. *)
Definition ushr0 (n : Z) : Z := (n mod 2 ^ 32)%Z.

(** [a.splice(start, deleteCount)], as the array it leaves behind: a
    negative [start] counts from the end, a [start] past the end is the
    end, and [deleteCount] is clamped to what is left. *)
Definition splice (start deleteCount : Z) (a : list handler) : list handler :=
  let len := Z.of_nat (length a) in
  let actualStart :=
    if (start <? 0)%Z then Z.max (len + start) 0 else Z.min start len in
  let actualDeleteCount := Z.min (Z.max deleteCount 0) (len - actualStart) in
  take (Z.to_nat actualStart) a
    ++ drop (Z.to_nat (actualStart + actualDeleteCount)) a.

(** [a.push(h)], as the array it leaves behind. *)
Definition push (h : handler) (a : list handler) : list handler := a ++ [h].

(** [a.slice()]: a copy of the array as it is now.  A list is a value,
    so the copy is the list read from the store at this point. *)
Definition slice (a : list handler) : list handler := a.

(** The largest length a JavaScript array can have, [2^32 - 1]. *)
Definition max_array_length : Z := 4294967295%Z.

(** A list that is the contents of some JavaScript array. *)
Definition js_array (a : list handler) : Prop :=
  (Z.of_nat (length a) <= max_array_length)%Z.

(** ** Removal as the specification words it *)

(** "Removes the first occurrence of [h]; does nothing if not found." *)
Fixpoint remove_first (h : handler) (a : list handler) : list handler :=
  match a with
  | [] => []
  | x :: a' => if decide (x = h) then a' else x :: remove_first h a'
  end.

(** The number of occurrences of [h] in [a]. *)
Definition occurrences (h : handler) (a : list handler) : nat :=
  length (filter (λ x, x = h) a).

(** ** The emitter *)

Section Emitter.

(** Payloads, thrown values, and whatever state of the program lies
    outside the emitter (handlers may read and change it). *)
Context {value exn world : Type}.

(** The state a call runs in: the [Map] [all] (each key holds a reference
    to an array), the arrays, and the rest of the program's state. *)
Record state : Type := State {
  all : gmap key loc;
  heap : gmap loc (list handler);
  user : world
}.

(** [all.get(type)]: the array stored under [type], with its contents, or
    [None] for [undefined].  (A key whose reference names no array of the
    store reads as [undefined] too; no operation produces such a key.) *)
Definition get (s : state) (type : key) : option (loc * list handler) :=
  l ← all s !! type; a ← heap s !! l; Some (l, a).

(** The handler sequence of [type]: empty when the key is absent. *)
Definition handlers_of (s : state) (type : key) : list handler :=
  from_option snd [] (get s type).

(** Two keys that hold one and the same array object. *)
Definition same_array (s : state) (k1 k2 : key) : Prop :=
  is_Some (get s k1) ∧ fst <$> get s k1 = fst <$> get s k2.

#[global] Instance same_array_dec s k1 k2 : Decision (same_array s k1 k2).
Proof. unfold same_array. apply _. Defined.

(** How often an operation done once for [k1] and once for [k2] reaches
    the array of either key: twice when they share it. *)
Definition reached (s : state) (k1 k2 : key) : nat :=
  if decide (same_array s k1 k2) then 2 else 1.

(** An array mutated in place: every key that holds [l] sees [a]. *)
Definition store (l : loc) (a : list handler) (s : state) : state :=
  {| all := all s; heap := <[l := a]> (heap s); user := user s |}.

(** The identity of the next array literal: unlike every array in use. *)
Definition fresh_loc (s : state) : loc :=
  fresh (dom (heap s) ∪ map_img (all s)).

(** [all.set(type, [..])]: a new array, with contents [a], under [type]. *)
Definition set_new (type : key) (a : list handler) (s : state) : state :=
  let l := fresh_loc s in
  {| all := <[type := l]> (all s); heap := <[l := a]> (heap s);
     user := user s |}.

(** [off(type, handler?)]: [Some h] for a handler given, [None] for the
    argument left out. *)
Definition off (type : key) (handler : option handler) (s : state) : state :=
  match get s type with
  | Some (l, handlers) =>
      match handler with
      | Some h => store l (splice (ushr0 (indexOf h handlers)) 1 handlers) s
      | None => set_new type [] s
      end
  | None => s
  end.

(** [_on(type, handler)]: the state it leaves and the function it
    returns, [() => { off(type, handler) }]. *)
Definition _on (type : key) (h : handler) (s : state)
  : state * (state → state) :=
  (match get s type with
   | Some (l, handlers) => store l (push h handlers) s
   | None => set_new type [h] s
   end,
   λ s', off type (Some h) s').

(** [types.forEach((type) => f(type))] over a state. *)
Definition forEach (types : list key) (f : key → state → state)
  (s : state) : state :=
  foldl (λ acc type, f type acc) s types.

(** The rest of the program's state replaced, as when the caller
    changes an object of its own. *)
Definition set_user (u : world) (s : state) : state :=
  {| all := all s; heap := heap s; user := u |}.

(** [_onArray(types, handler)]: the state it leaves and the function it
    returns, [() => { types.forEach((type) => off(type, handler)) }].
    The array [types] is an object of the caller's, which the returned
    function keeps a reference to: it is given by the way its elements
    are read from the program's state, so that each [forEach] iterates
    the elements the array has when that [forEach] runs.  ([_on] and
    [off] do not write to it, so it does not change during one
    [forEach].) *)
Definition _onArray (types : world → list key) (h : handler) (s : state)
  : state * (state → state) :=
  (forEach (types (user s)) (λ type acc, fst (_on type h acc)) s,
   λ s', forEach (types (user s')) (λ type acc, off type (Some h) acc) s').

(** An array literal, [[a, b]]: no one else holds it, so its elements
    are the same whenever it is read. *)
Definition literal (types : list key) : world → list key := λ _, types.

(** The first argument of [on]: one type, or an array of types. *)
Inductive types_arg : Type :=
  | One (type : key)
  | Many (types : world → list key).

(** The types an argument of [on] names, in a given state. *)
Definition types_of (type : types_arg) (s : state) : list key :=
  match type with
  | Many types => types (user s)
  | One type => [type]
  end.

(** How many of [types] reach the array that [k] holds: those that are
    [k], and those that hold the same array as [k]. *)
Definition hits (s : state) (types : list key) (k : key) : nat :=
  length (filter (λ t, t = k ∨ same_array s t k) types).

(** [on(type, handler)]: [Array.isArray(type)] tells the two cases. *)
Definition on (type : types_arg) (h : handler) (s : state)
  : state * (state → state) :=
  match type with
  | Many types => _onArray types h s
  | One type => _on type h s
  end.

(** The arguments a handler is called with: [handler(evt)] for a typed
    handler, [handler(type, evt)] for a wildcard handler. *)
Inductive args : Type :=
  | Typed (evt : value)
  | Wild (type : key) (evt : value).

(** How a call of a handler ends: it returns, or it throws; either way
    it leaves a state. *)
Inductive outcome : Type :=
  | Ret (s : state)
  | Throw (e : exn) (s : state).

Definition state_of (o : outcome) : state :=
  match o with Ret s => s | Throw _ s => s end.

(** One invocation of a handler by the emitter. *)
Definition call : Type := handler * args.

(** The invocations of [handlers], in order, each with arguments [a]. *)
Definition calls (a : args) (handlers : list handler) : list call :=
  map (λ h, (h, a)) handlers.

(** What the handlers do when called. *)
Variable run : handler → args → state → outcome.

(** [snapshot.map((handler) => { handler(..) })]: calls the handlers in
    order, each in the state the one before left; a throw ends the
    iteration.  The result lists the invocations made. *)
Fixpoint invoke_each (a : args) (handlers : list handler) (s : state)
  : list call * outcome :=
  match handlers with
  | [] => ([], Ret s)
  | h :: rest =>
      match run h a s with
      | Ret s1 =>
          let '(tr, o) := invoke_each a rest s1 in ((h, a) :: tr, o)
      | Throw e s1 => ([(h, a)], Throw e s1)
      end
  end.

(** One block of [emit]:
    [handlers = all.get(k); if (handlers) handlers.slice().map(..)]. *)
Definition dispatch (k : key) (a : args) (s : state) : list call * outcome :=
  match get s k with
  | Some (_, handlers) => invoke_each a (slice handlers) s
  | None => ([], Ret s)
  end.

(** [emit(type, evt)]: the block for [type], then the block for ['*']. *)
Definition emit (type : key) (evt : value) (s : state)
  : list call * outcome :=
  match dispatch type (Typed evt) s with
  | (tr1, Ret s1) =>
      let '(tr2, o) := dispatch wildcard (Wild type evt) s1 in (tr1 ++ tr2, o)
  | (tr1, Throw e s1) => (tr1, Throw e s1)
  end.

(** [mitt(all?)]: the emitter's first state, [all || new Map()]. *)
Definition mitt (init : option state) (u : world) : state :=
  match init with
  | Some s => s
  | None => {| all := ∅; heap := ∅; user := u |}
  end.

End Emitter.

Arguments state : clear implicits.
Arguments args : clear implicits.
Arguments outcome : clear implicits.
Arguments call : clear implicits.

(** ** Concrete emitters

    Payloads are numbers, thrown values are strings, and there is no
    state outside the emitter. *)

Module Scenario.

Definition st : Type := state unit.

(** [mitt()] *)
Definition fresh_emitter : st := mitt None tt.

(** A run of [on(type, h)] calls, in order, each for one type. *)
Definition register (regs : list (key * handler)) (s : st) : st :=
  foldl (λ acc r, fst (on (One (fst r)) (snd r) acc)) s regs.

(** Handlers that do nothing. *)
Definition inert : handler → args nat → st → outcome string unit :=
  λ _ _ s, Ret s.

(** Handler [h0] calls [on(type, hNew)]; the others do nothing. *)
Definition registering (h0 : handler) (type : key) (hNew : handler)
  : handler → args nat → st → outcome string unit :=
  λ h _ s, if decide (h = h0) then Ret (fst (on (One type) hNew s)) else Ret s.

(** Handler [h0] calls [off(type, h1)]; the others do nothing. *)
Definition removing (h0 : handler) (type : key) (h1 : handler)
  : handler → args nat → st → outcome string unit :=
  λ h _ s, if decide (h = h0) then Ret (off type (Some h1) s) else Ret s.

(** Handler [h0] throws [e]; the others do nothing. *)
Definition throwing (h0 : handler) (e : string)
  : handler → args nat → st → outcome string unit :=
  λ h _ s, if decide (h = h0) then Throw e s else Ret s.

(** One array under two keys, as a caller may seed [mitt(all)] with:
    [const arr = [h]; mitt(new Map([[k1, arr], [k2, arr]]))]. *)
Definition shared_array (k1 k2 : key) (a : list handler) : st :=
  {| all := <[k1 := 1%positive]> (<[k2 := 1%positive]> ∅);
     heap := {[ 1%positive := a ]};
     user := tt |}.


(** A caller that keeps the array it passes to [on]:
    [const types = elems; const emitter = mitt()].  The state outside
    the emitter is that array. *)
Definition holding (elems : list key) : state (list key) :=
  mitt None elems.

(** The caller's array [types], as the argument of [on]. *)
Definition held : @types_arg (list key) := Many id.

(** [types.push(type)] *)
Definition types_push (type : key) (s : state (list key))
  : state (list key) :=
  set_user (user s ++ [type]) s.

(** [const types = ['a']; on('b', 3); const u = on(types, 3);
    types.push('b')]: the state, and [u]. *)
Definition grown_array : state (list key) :=
  types_push "b"%string
    (fst (on held 3 (fst (on (One "b"%string) 3 (holding ["a"%string]))))).

Definition grown_unsubscribe : state (list key) → state (list key) :=
  snd (on held 3 (fst (on (One "b"%string) 3 (holding ["a"%string])))).

(** The state a call of [emit] leaves. *)
Definition final (r : list (call nat) * outcome string unit) : st :=
  state_of (snd r).

(** [on('login', 1); on('login', 2); on('*', 3)] on a new emitter. *)
Definition login_emitter : st :=
  register [("login", 1); ("login", 2); ("*", 3)]%string fresh_emitter.

(** [on('a', 1); on('a', 2); on('a', 1)]: handler 1 registered twice. *)
Definition twice_emitter : st :=
  register [("a", 1); ("a", 2); ("a", 1)]%string fresh_emitter.

(** [const u = on('a', 1); on('a', 1)]: the state, and [u]. *)
Definition registered_twice : st :=
  fst (on (One "a"%string) 1 (fst (on (One "a"%string) 1 fresh_emitter))).

Definition first_unsubscribe : st → st :=
  snd (on (One "a"%string) 1 fresh_emitter).

(** [on('a', 1); on('a', 2)] *)
Definition pair_emitter : st :=
  register [("a", 1); ("a", 2)]%string fresh_emitter.

(** Three handlers under ['a'] and three wildcard handlers. *)
Definition busy_emitter : st :=
  register
    [("a", 1); ("a", 2); ("a", 3); ("*", 4); ("*", 5); ("*", 6)]%string
    fresh_emitter.

End Scenario.

(** ** Facts about the array primitives *)

Section ArrayFacts.

Implicit Types (h x : handler) (a pre post : list handler).

Lemma indexOf_from_cases h a i :
  ((h ∉ a) ∧ indexOf_from h i a = (-1)%Z)
  ∨ (∃ pre post, a = pre ++ h :: post ∧ (h ∉ pre)
       ∧ indexOf_from h i a = (i + Z.of_nat (length pre))%Z).
Proof.
  revert i. induction a as [|x a IH]; intros i; simpl.
  - left. split; [apply not_elem_of_nil | done].
  - destruct (decide (x = h)) as [->|Hne].
    + right. exists [], a. simpl. split_and!; [done | apply not_elem_of_nil | lia].
    + destruct (IH (i + 1)%Z) as [[Hnot Hidx] | (pre & post & -> & Hpre & Hidx)].
      * left. split; [|done]. rewrite not_elem_of_cons. auto.
      * right. exists (x :: pre), post. split_and!; [done | |].
        -- rewrite not_elem_of_cons. auto.
        -- rewrite Hidx. simpl length. lia.
Qed.

Lemma remove_first_absent h a : h ∉ a → remove_first h a = a.
Proof.
  induction a as [|x a IH]; [done|]. simpl.
  rewrite not_elem_of_cons. intros [Hne Hnot].
  destruct (decide (x = h)); [congruence|]. by rewrite IH.
Qed.

Lemma remove_first_split h pre post :
  h ∉ pre → remove_first h (pre ++ h :: post) = pre ++ post.
Proof.
  induction pre as [|x pre IH]; simpl.
  - intros _. by destruct (decide (h = h)).
  - rewrite not_elem_of_cons. intros [Hne Hnot].
    destruct (decide (x = h)); [congruence|]. by rewrite IH.
Qed.

Lemma splice_one_at x pre post :
  splice (Z.of_nat (length pre)) 1 (pre ++ x :: post) = pre ++ post.
Proof.
  unfold splice. rewrite length_app. simpl length.
  destruct (Z.ltb_spec (Z.of_nat (length pre)) 0); [lia|].
  rewrite Z.min_l by lia. rewrite (Z.max_l 1 0) by lia. rewrite Z.min_l by lia.
  rewrite Nat2Z.id.
  replace (Z.to_nat (Z.of_nat (length pre) + 1)) with (length pre + 1) by lia.
  rewrite take_app_length.
  rewrite drop_app_ge by lia.
  replace (length pre + 1 - length pre) with 1 by lia. done.
Qed.

Lemma splice_past_end n k a :
  (Z.of_nat (length a) <= n)%Z → splice n k a = a.
Proof.
  intros Hn. unfold splice.
  destruct (Z.ltb_spec n 0); [lia|].
  rewrite (Z.min_r n) by lia.
  replace (Z.min (Z.max k 0) (Z.of_nat (length a) - Z.of_nat (length a)))
    with 0%Z by lia.
  rewrite Z.add_0_r, Nat2Z.id, take_ge, drop_ge by lia.
  by rewrite app_nil_r.
Qed.

(** The index lookup and the splice of [off] together remove the first
    occurrence, and nothing when there is none: [-1 >>> 0] is
    [2^32 - 1], which no array's length exceeds. *)
Lemma splice_indexOf h a :
  js_array a → splice (ushr0 (indexOf h a)) 1 a = remove_first h a.
Proof.
  unfold js_array, max_array_length, indexOf, ushr0. intros Hlen.
  destruct (indexOf_from_cases h a 0)
    as [[Hnot ->] | (pre & post & -> & Hpre & ->)].
  - rewrite remove_first_absent by done.
    apply splice_past_end. change ((-1) mod 2 ^ 32)%Z with 4294967295%Z. lia.
  - rewrite remove_first_split by done.
    rewrite length_app in Hlen. simpl in Hlen.
    rewrite Z.add_0_l, Z.mod_small by lia.
    apply splice_one_at.
Qed.

Lemma occurrences_cons h x a :
  occurrences h (x :: a)
  = (if decide (x = h) then S (occurrences h a) else occurrences h a).
Proof.
  unfold occurrences. rewrite filter_cons. by destruct (decide (x = h)).
Qed.

Lemma occurrences_app h a1 a2 :
  occurrences h (a1 ++ a2) = occurrences h a1 + occurrences h a2.
Proof. unfold occurrences. by rewrite filter_app, length_app. Qed.

Lemma occurrences_absent h a : h ∉ a ↔ occurrences h a = 0.
Proof.
  induction a as [|x a IH].
  - split; [done | intros _; apply not_elem_of_nil].
  - rewrite occurrences_cons, not_elem_of_cons.
    destruct (decide (x = h)) as [->|Hne].
    + split; [intros [Hh _]; by destruct Hh | discriminate].
    + rewrite <- IH. split; [by intros [_ Hnot] | intros Hnot; split; congruence].
Qed.

Lemma occurrences_remove_first h a :
  occurrences h (remove_first h a) = pred (occurrences h a).
Proof.
  induction a as [|x a IH]; [done|]. simpl. rewrite occurrences_cons.
  destruct (decide (x = h)); [done|].
  rewrite occurrences_cons. by destruct (decide (x = h)).
Qed.

Lemma remove_first_push_absent h a : h ∉ a → remove_first h (push h a) = a.
Proof.
  intros Hnot. unfold push.
  rewrite <- (app_nil_r a) at 2. by apply remove_first_split.
Qed.

Lemma js_array_remove_first h a : js_array a → js_array (remove_first h a).
Proof.
  unfold js_array. intros Hlen.
  assert (length (remove_first h a) ≤ length a) as Hle; [|lia].
  clear Hlen. induction a as [|x a IH]; [done|]. simpl.
  destruct (decide (x = h)); simpl; lia.
Qed.

End ArrayFacts.

(** ** Facts about the registry: [get], [store], [set_new], [off], [on] *)

Section RegistryFacts.

Context {world : Type}.

Implicit Types (s : state world) (k type : key) (l : loc)
  (h : handler) (a : list handler).

Lemma get_Some s k l a :
  get s k = Some (l, a) ↔ all s !! k = Some l ∧ heap s !! l = Some a.
Proof.
  unfold get. destruct (all s !! k) as [l0|]; simpl.
  - destruct (heap s !! l0) as [a0|] eqn:Hh; simpl.
    + split; [intros [= <- <-]; by split |].
      intros [[= <-] Ha]. rewrite Hh in Ha. by injection Ha as ->.
    + split; [discriminate |]. intros [[= <-] Ha]. congruence.
  - split; [discriminate | intros [? _]; discriminate].
Qed.

Lemma get_None s k :
  get s k = None ↔ all s !! k = None ∨ ∃ l, all s !! k = Some l ∧ heap s !! l = None.
Proof.
  unfold get. destruct (all s !! k) as [l0|]; simpl.
  - destruct (heap s !! l0) as [a0|] eqn:Hh; simpl.
    + split; [discriminate |].
      intros [? | (l & [= <-] & Hl)]; congruence.
    + split; [intros _; right; by exists l0 | done].
  - split; [intros _; by left | done].
Qed.

Lemma handlers_of_Some s k l a : get s k = Some (l, a) → handlers_of s k = a.
Proof. unfold handlers_of. by intros ->. Qed.

Lemma handlers_of_None s k : get s k = None → handlers_of s k = [].
Proof. unfold handlers_of. by intros ->. Qed.

Lemma state_eq s1 s2 :
  all s1 = all s2 → heap s1 = heap s2 → user s1 = user s2 → s1 = s2.
Proof. destruct s1, s2. simpl. by intros -> -> ->. Qed.

(** Writing to an array what it holds already changes nothing. *)
Lemma store_same s l a : heap s !! l = Some a → store l a s = s.
Proof. intros Hl. apply state_eq; simpl; [done | by apply insert_id | done]. Qed.

(** After an array is mutated, a key reads the new contents if it holds
    that array, and what it read before otherwise. *)
Lemma get_store s l a k :
  get (store l a s) k
  = (if decide (all s !! k = Some l) then Some (l, a) else get s k).
Proof.
  unfold get, store. simpl. destruct (decide (all s !! k = Some l)) as [->|Hne].
  - simpl. by rewrite lookup_insert_eq.
  - destruct (all s !! k) as [l0|]; simpl; [|done].
    rewrite lookup_insert_ne; [done | congruence].
Qed.

Lemma get_store_same s l a a' k :
  get s k = Some (l, a) → get (store l a' s) k = Some (l, a').
Proof.
  intros [Hk _]%get_Some. rewrite get_store. by rewrite decide_True.
Qed.

(** A new array literal is no array of the store and is held by no key. *)
Lemma fresh_loc_heap s : heap s !! fresh_loc s = None.
Proof.
  apply not_elem_of_dom. unfold fresh_loc.
  pose proof (is_fresh (dom (heap s) ∪ map_img (all s))) as Hf.
  set_solver.
Qed.

Lemma fresh_loc_all s k : all s !! k ≠ Some (fresh_loc s).
Proof.
  intros Hk. unfold fresh_loc in Hk.
  pose proof (is_fresh (dom (heap s) ∪ map_img (all s))) as Hf.
  apply Hf, elem_of_union_r. rewrite elem_of_map_img. eauto.
Qed.

Lemma get_set_new_same s k a : get (set_new k a s) k = Some (fresh_loc s, a).
Proof.
  unfold get, set_new. simpl. rewrite lookup_insert_eq. simpl.
  by rewrite lookup_insert_eq.
Qed.

Lemma get_set_new_other s k a k' :
  k' ≠ k → get (set_new k a s) k' = get s k'.
Proof.
  intros Hne. unfold get, set_new. simpl. rewrite lookup_insert_ne by done.
  destruct (all s !! k') as [l0|] eqn:Hk; simpl; [|done].
  rewrite lookup_insert_ne; [done|].
  intros <-. by apply (fresh_loc_all s k').
Qed.

Lemma off_absent s type oh : get s type = None → off type oh s = s.
Proof. unfold off. by intros ->. Qed.

Lemma off_handler s type l a h :
  get s type = Some (l, a) →
  off type (Some h) s = store l (splice (ushr0 (indexOf h a)) 1 a) s.
Proof. unfold off. by intros ->. Qed.

Lemma off_all s type l a :
  get s type = Some (l, a) → off type None s = set_new type [] s.
Proof. unfold off. by intros ->. Qed.

(** [off] with a handler that does not occur under [type] changes
    nothing at all. *)
Lemma off_not_registered s type h :
  js_array (handlers_of s type) → h ∉ handlers_of s type →
  off type (Some h) s = s.
Proof.
  destruct (get s type) as [[l a]|] eqn:Hget.
  - rewrite (handlers_of_Some _ _ _ _ Hget). intros Hjs Hnot.
    rewrite (off_handler _ _ _ _ _ Hget), splice_indexOf by done.
    rewrite remove_first_absent by done.
    apply store_same. by apply get_Some in Hget as [_ ?].
  - intros _ _. by apply off_absent.
Qed.

(** What [type] holds after [off(type, h)]. *)
Lemma handlers_of_off s type h :
  js_array (handlers_of s type) →
  handlers_of (off type (Some h) s) type = remove_first h (handlers_of s type).
Proof.
  destruct (get s type) as [[l a]|] eqn:Hget.
  - rewrite (handlers_of_Some _ _ _ _ Hget). intros Hjs.
    rewrite (off_handler _ _ _ _ _ Hget), splice_indexOf by done.
    by rewrite (handlers_of_Some _ _ l (remove_first h a))
      by by eapply get_store_same.
  - intros _. rewrite off_absent by done.
    by rewrite (handlers_of_None _ _ Hget).
Qed.

(** What [type] holds after [_on(type, h)]: [h] comes last. *)
Lemma handlers_of_on s type h :
  handlers_of (fst (_on type h s)) type = handlers_of s type ++ [h].
Proof.
  unfold _on. simpl. destruct (get s type) as [[l a]|] eqn:Hget.
  - rewrite (handlers_of_Some _ _ _ _ Hget).
    by rewrite (handlers_of_Some _ _ l (push h a)) by by eapply get_store_same.
  - rewrite (handlers_of_None _ _ Hget).
    by rewrite (handlers_of_Some _ _ _ _ (get_set_new_same _ _ _)).
Qed.

Lemma handlers_of_on_One s type h :
  handlers_of (fst (on (One type) h s)) type = handlers_of s type ++ [h].
Proof. apply handlers_of_on. Qed.

(** *** Keys that share an array *)

Lemma same_array_holds s k1 k2 l a :
  get s k1 = Some (l, a) → same_array s k1 k2 ↔ all s !! k2 = Some l.
Proof.
  intros Hget. unfold same_array. rewrite Hget. simpl. split.
  - intros [_ Heq]. destruct (get s k2) as [[l2 a2]|] eqn:Hk2; [|done].
    simpl in Heq. injection Heq as <-. by apply get_Some in Hk2 as [? _].
  - intros Hk2. split; [by eexists|].
    apply get_Some in Hget as [_ Hl].
    by rewrite (proj2 (get_Some s k2 l a) (conj Hk2 Hl)).
Qed.

Lemma same_array_handlers s k1 k2 :
  same_array s k1 k2 → handlers_of s k2 = handlers_of s k1.
Proof.
  intros Hsame. destruct (get s k1) as [[l a]|] eqn:Hget.
  - apply (same_array_holds _ _ k2 _ _ Hget) in Hsame.
    pose proof Hget as [_ Hl]%get_Some.
    rewrite (handlers_of_Some _ _ _ _ Hget).
    by apply (handlers_of_Some _ _ l), get_Some.
  - destruct Hsame as [[? Hsome] _]. congruence.
Qed.

Lemma same_array_sym s k1 k2 : same_array s k1 k2 → same_array s k2 k1.
Proof.
  unfold same_array. intros [[y Hy] Heq]. rewrite Hy in Heq.
  destruct (get s k2) as [y2|] eqn:Hk2; [|done].
  rewrite Hy. split; [by eexists | done].
Qed.

Lemma handlers_of_store s l a k :
  handlers_of (store l a s) k
  = (if decide (all s !! k = Some l) then a else handlers_of s k).
Proof.
  unfold handlers_of. rewrite get_store.
  by destruct (decide (all s !! k = Some l)).
Qed.

(** What any key holds after [_on(type, h)]: [h] is pushed onto the
    array of [type], which every key sharing that array sees. *)
Lemma handlers_of_on_any s type h k :
  handlers_of (fst (_on type h s)) k
  = (if decide (k = type ∨ same_array s type k)
     then handlers_of s k ++ [h] else handlers_of s k).
Proof.
  unfold _on. simpl. destruct (get s type) as [[l a]|] eqn:Hget.
  - rewrite handlers_of_store.
    destruct (decide (all s !! k = Some l)) as [Hk|Hk].
    + apply (same_array_holds _ _ _ _ _ Hget) in Hk.
      rewrite decide_True by by right.
      by rewrite (same_array_handlers _ _ _ Hk), (handlers_of_Some _ _ _ _ Hget).
    + rewrite decide_False; [done|]. intros [->|Hsame].
      * by apply get_Some in Hget as [? _].
      * by apply (same_array_holds _ _ _ _ _ Hget) in Hsame.
  - destruct (decide (k = type)) as [->|Hne].
    + rewrite decide_True by by left.
      rewrite (handlers_of_Some _ _ _ _ (get_set_new_same _ _ _)).
      by rewrite (handlers_of_None _ _ Hget).
    + rewrite decide_False.
      * unfold handlers_of. by rewrite get_set_new_other.
      * intros [?|[[? Hsome] _]]; congruence.
Qed.

(** What any key holds after [off(type, h)]. *)
Lemma handlers_of_off_any s type h k :
  js_array (handlers_of s type) →
  handlers_of (off type (Some h) s) k
  = (if decide (k = type ∨ same_array s type k)
     then remove_first h (handlers_of s k) else handlers_of s k).
Proof.
  intros Hjs. destruct (get s type) as [[l a]|] eqn:Hget.
  - rewrite (handlers_of_Some _ _ _ _ Hget) in Hjs.
    rewrite (off_handler _ _ _ _ _ Hget), splice_indexOf by done.
    rewrite handlers_of_store.
    destruct (decide (all s !! k = Some l)) as [Hk|Hk].
    + apply (same_array_holds _ _ _ _ _ Hget) in Hk.
      rewrite decide_True by by right.
      by rewrite (same_array_handlers _ _ _ Hk), (handlers_of_Some _ _ _ _ Hget).
    + rewrite decide_False; [done|]. intros [->|Hsame].
      * by apply get_Some in Hget as [? _].
      * by apply (same_array_holds _ _ _ _ _ Hget) in Hsame.
  - rewrite off_absent by done.
    destruct (decide (k = type ∨ same_array s type k)) as [[->|[[? Hsome] _]]|];
      [|congruence|done].
    by rewrite (handlers_of_None _ _ Hget).
Qed.

(** [_on(type, h)] and [off(type, h)] leave the sharing of [type]'s
    array with another key as it was. *)
Lemma same_array_on s type h k :
  k ≠ type → same_array (fst (_on type h s)) type k ↔ same_array s type k.
Proof.
  intros Hne. unfold _on. simpl. destruct (get s type) as [[l a]|] eqn:Hget.
  - rewrite (same_array_holds _ _ k _ _ (get_store_same _ _ _ (push h a) _ Hget)).
    by rewrite (same_array_holds _ _ k _ _ Hget).
  - rewrite (same_array_holds _ _ k _ _ (get_set_new_same _ _ _)). simpl.
    rewrite lookup_insert_ne by done. split.
    + intros Hk. by apply fresh_loc_all in Hk.
    + intros [[? Hsome] _]. congruence.
Qed.

Lemma same_array_off s type h k :
  same_array (off type (Some h) s) type k ↔ same_array s type k.
Proof.
  destruct (get s type) as [[l a]|] eqn:Hget.
  - rewrite (off_handler _ _ _ _ _ Hget).
    rewrite (same_array_holds _ _ k _ _ (get_store_same _ _ _ _ _ Hget)).
    by rewrite (same_array_holds _ _ k _ _ Hget).
  - by rewrite off_absent.
Qed.

(** [off(type, h)] adds no occurrence of [h] under any key, and keeps
    every array within the bound. *)
Lemma occurrences_off_le s type h k :
  js_array (handlers_of s type) →
  occurrences h (handlers_of (off type (Some h) s) k)
  ≤ occurrences h (handlers_of s k).
Proof.
  intros Hjs. rewrite handlers_of_off_any by done.
  destruct (decide (k = type ∨ same_array s type k)); [|done].
  rewrite occurrences_remove_first. lia.
Qed.

Lemma js_array_off s type h k :
  js_array (handlers_of s type) → js_array (handlers_of s k) →
  js_array (handlers_of (off type (Some h) s) k).
Proof.
  intros Hjs Hk. rewrite handlers_of_off_any by done.
  destruct (decide (k = type ∨ same_array s type k)); [|done].
  by apply js_array_remove_first.
Qed.

(** C2.  Where [type] holds the array [l] with contents [a], the call
    [off(type, h)] leaves under [type] the same array with the first
    occurrence of [h] removed, [remove_first h a]: what stood before that
    occurrence and after it is kept, in order.  One call removes at most
    one occurrence; when [h] does not occur the whole state is unchanged;
    and when [h] occurs twice, one call leaves one occurrence and a second
    call removes it. *)
Theorem off_removes_first_occurrence s type l a h :
  get s type = Some (l, a) →
  js_array a →
  get (off type (Some h) s) type = Some (l, remove_first h a)
  ∧ (∀ pre post, a = pre ++ h :: post → h ∉ pre →
       handlers_of (off type (Some h) s) type = pre ++ post)
  ∧ occurrences h (handlers_of (off type (Some h) s) type)
    = pred (occurrences h a)
  ∧ (h ∉ a → off type (Some h) s = s)
  ∧ (occurrences h a = 2 →
       occurrences h (handlers_of (off type (Some h) s) type) = 1
       ∧ occurrences h
           (handlers_of (off type (Some h) (off type (Some h) s)) type) = 0).
Proof.
  intros Hget Hjs.
  assert (get (off type (Some h) s) type = Some (l, remove_first h a)) as Hget'.
  { rewrite (off_handler _ _ _ _ _ Hget), splice_indexOf by done.
    by eapply get_store_same. }
  pose proof (handlers_of_Some _ _ _ _ Hget') as Hseq.
  split_and!.
  - done.
  - intros pre post -> Hpre. rewrite Hseq. by apply remove_first_split.
  - rewrite Hseq. apply occurrences_remove_first.
  - intros Hnot. apply off_not_registered; by rewrite (handlers_of_Some _ _ _ _ Hget).
  - intros Htwo. rewrite Hseq, occurrences_remove_first, Htwo. split; [done|].
    rewrite handlers_of_off by (rewrite Hseq; by apply js_array_remove_first).
    rewrite Hseq, !occurrences_remove_first, Htwo. done.
Qed.

(** *** One operation for each of two keys *)

Lemma on_pair_state (a b : key) h s :
  fst (on (Many (literal [a; b])) h s) = fst (_on b h (fst (_on a h s))).
Proof. done. Qed.

Lemma on_pair_unsubscribe (a b : key) h s s2 :
  snd (on (Many (literal [a; b])) h s) s2 = off b (Some h) (off a (Some h) s2).
Proof. done. Qed.

Lemma handlers_of_on_pair (a b : key) h s :
  a ≠ b →
  handlers_of (fst (on (Many (literal [a; b])) h s)) a
    = handlers_of s a ++ replicate (reached s a b) h
  ∧ handlers_of (fst (on (Many (literal [a; b])) h s)) b
    = handlers_of s b ++ replicate (reached s a b) h.
Proof.
  intros Hne. rewrite on_pair_state, handlers_of_on, !handlers_of_on_any.
  unfold reached. destruct (decide (same_array s a b)) as [Hs|Hs].
  - rewrite (decide_True (P := a = a ∨ _)) by by left.
    rewrite (decide_True (P := b = a ∨ _)) by by right.
    rewrite decide_True.
    + by rewrite <- !app_assoc.
    + right. apply same_array_sym. by apply same_array_on.
  - rewrite (decide_True (P := a = a ∨ _)) by by left.
    rewrite (decide_False (P := b = a ∨ _)) by (intros [?|?]; done).
    rewrite decide_False; [done|].
    intros [?|Hs']; [done|]. apply Hs.
    by apply (same_array_on s a h b), same_array_sym.
Qed.

Lemma handlers_of_off_pair (a b : key) h s2 :
  js_array (handlers_of s2 a) → js_array (handlers_of s2 b) →
  handlers_of (off b (Some h) (off a (Some h) s2)) a
    = Nat.iter (reached s2 a b) (remove_first h) (handlers_of s2 a)
  ∧ handlers_of (off b (Some h) (off a (Some h) s2)) b
    = Nat.iter (reached s2 a b) (remove_first h) (handlers_of s2 b).
Proof.
  intros Hja Hjb.
  rewrite handlers_of_off by by apply js_array_off.
  rewrite (handlers_of_off_any _ b h a) by by apply js_array_off.
  rewrite !handlers_of_off_any by done.
  unfold reached. destruct (decide (same_array s2 a b)) as [Hs|Hs].
  - rewrite (decide_True (P := a = a ∨ _)) by by left.
    rewrite (decide_True (P := b = a ∨ _)) by by right.
    rewrite decide_True; [done|].
    right. apply same_array_sym. by apply same_array_off.
  - rewrite (decide_True (P := a = a ∨ _)) by by left.
    destruct (decide (a = b)) as [->|Hne].
    { destruct (get s2 b) as [y|] eqn:Hget.
      - destruct Hs. split; [by eexists | done].
      - by rewrite !decide_True, !(handlers_of_None _ _ Hget) by by left. }
    rewrite (decide_False (P := b = a ∨ _)) by (intros [?|?]; done).
    rewrite decide_False; [done|].
    intros [?|Hs']; [done|]. apply Hs.
    by apply (same_array_off s2 a h b), same_array_sym.
Qed.

Lemma reached_on_pair (a b : key) h s :
  a ≠ b → reached (fst (on (Many (literal [a; b])) h s)) a b = reached s a b.
Proof.
  intros Hne. rewrite on_pair_state. unfold reached.
  assert (same_array (fst (_on b h (fst (_on a h s)))) a b ↔ same_array s a b)
    as Hiff.
  { rewrite <- (same_array_on s a h b) by done. split.
    - intros Hs. apply same_array_sym.
      apply (same_array_on _ b h a); [done|]. by apply same_array_sym.
    - intros Hs. apply same_array_sym.
      apply (same_array_on _ b h a); [done|]. by apply same_array_sym. }
  destruct (decide (same_array s a b)) as [Hs|Hs].
  - by rewrite decide_True by by apply Hiff.
  - by rewrite decide_False by by rewrite Hiff.
Qed.

Lemma remove_first_replicate h a n :
  h ∉ a → Nat.iter n (remove_first h) (a ++ replicate n h) = a.
Proof.
  intros Hnot. induction n as [|n IH].
  - simpl. by rewrite app_nil_r.
  - rewrite Nat.iter_succ_r. simpl replicate.
    by rewrite remove_first_split.
Qed.

(** X4.  [on(type, h)] for one type puts [h] last in the sequence of [type],
    which it creates when the key is absent; a key that shares the array
    of [type] sees the same push, and every other key reads what it read
    before. *)
Theorem on_appends_handler s type h :
  handlers_of (fst (on (One type) h s)) type = handlers_of s type ++ [h]
  ∧ (∀ k, handlers_of (fst (on (One type) h s)) k
          = (if decide (k = type ∨ same_array s type k)
             then handlers_of s k ++ [h] else handlers_of s k))
  ∧ (get s type = None →
       get (fst (on (One type) h s)) type = Some (fresh_loc s, [h])
       ∧ ∀ k, k ≠ type → get (fst (on (One type) h s)) k = get s k).
Proof.
  split_and!.
  - apply handlers_of_on.
  - intros k. apply handlers_of_on_any.
  - intros Hget. change (fst (on (One type) h s)) with (fst (_on type h s)).
    unfold _on. simpl. rewrite Hget. split.
    + apply get_set_new_same.
    + intros k Hk. by apply get_set_new_other.
Qed.

(** *** The function [on] returns *)

Lemma user_off s type oh : user (off type oh s) = user s.
Proof.
  unfold off. destruct (get s type) as [[l a]|]; [|done]. by destruct oh.
Qed.

Lemma user_on s type h : user (fst (_on type h s)) = user s.
Proof. unfold _on. simpl. by destruct (get s type) as [[l a]|]. Qed.

Lemma user_off_each (types : list key) h s :
  user (forEach types (λ t acc, off t (Some h) acc) s) = user s.
Proof.
  unfold forEach. revert s. induction types as [|t types IH]; intros s; [done|].
  cbn [foldl]. rewrite IH. apply user_off.
Qed.

Lemma user_on_each (types : list key) h s :
  user (forEach types (λ t acc, fst (_on t h acc)) s) = user s.
Proof.
  unfold forEach. revert s. induction types as [|t types IH]; intros s; [done|].
  cbn [foldl]. rewrite IH. apply user_on.
Qed.

Lemma unsubscribe_off_each s (targ : types_arg) h s2 :
  snd (on targ h s) s2
  = forEach (types_of targ s2) (λ t acc, off t (Some h) acc) s2.
Proof. by destruct targ. Qed.

Lemma on_state_on_each (targ : types_arg) h s :
  fst (on targ h s)
  = forEach (types_of targ s) (λ t acc, fst (_on t h acc)) s.
Proof. by destruct targ. Qed.

Lemma types_of_unsubscribe (targ targ' : types_arg) h s s2 :
  types_of targ' (snd (on targ h s) s2) = types_of targ' s2.
Proof.
  destruct targ' as [t|types]; [done|]. cbn [types_of].
  by rewrite unsubscribe_off_each, user_off_each.
Qed.

Lemma types_of_on (targ targ' : types_arg) h s :
  types_of targ' (fst (on targ h s)) = types_of targ' s.
Proof.
  destruct targ' as [t|types]; [done|]. cbn [types_of].
  by rewrite on_state_on_each, user_on_each.
Qed.

Lemma off_each_absent (types : list key) h s2 :
  (∀ t, t ∈ types → js_array (handlers_of s2 t) ∧ h ∉ handlers_of s2 t) →
  forEach types (λ t acc, off t (Some h) acc) s2 = s2.
Proof.
  unfold forEach. induction types as [|t types IH]; intros Hall; [done|].
  simpl. destruct (Hall t (list_elem_of_here _ _)) as [Hjs Hnot].
  rewrite off_not_registered by done.
  apply IH. intros t' Ht'. apply Hall. by apply list_elem_of_further.
Qed.

Lemma off_each_occurrences_le (types : list key) h s2 k :
  (∀ t, t ∈ types → js_array (handlers_of s2 t)) →
  occurrences h (handlers_of (forEach types (λ t acc, off t (Some h) acc) s2) k)
  ≤ occurrences h (handlers_of s2 k).
Proof.
  unfold forEach. revert s2.
  induction types as [|t types IH]; intros s2 Hall; [done|]. simpl.
  pose proof (Hall t (list_elem_of_here _ _)) as Hjs.
  etrans; [apply IH | by apply occurrences_off_le].
  intros t' Ht'. apply js_array_off; [done|].
  apply Hall. by apply list_elem_of_further.
Qed.

Lemma off_each_removes (types : list key) h s2 :
  (∀ t, t ∈ types →
     js_array (handlers_of s2 t) ∧ occurrences h (handlers_of s2 t) ≤ 1) →
  ∀ t, t ∈ types →
    h ∉ handlers_of (forEach types (λ t acc, off t (Some h) acc) s2) t.
Proof.
  revert s2. induction types as [|t0 types IH]; intros s2 Hall t Ht.
  { by apply elem_of_nil in Ht. }
  destruct (Hall t0 (list_elem_of_here _ _)) as [Hjs0 Hocc0].
  assert (∀ t', t' ∈ types → js_array (handlers_of (off t0 (Some h) s2) t'))
    as Hjs'.
  { intros t' Ht'. apply js_array_off; [done|].
    apply Hall. by apply list_elem_of_further. }
  change (forEach (t0 :: types) (λ t acc, off t (Some h) acc) s2)
    with (forEach types (λ t acc, off t (Some h) acc) (off t0 (Some h) s2)).
  destruct (decide (t = t0)) as [->|Hne].
  - apply occurrences_absent.
    pose proof (off_each_occurrences_le types h _ t0 Hjs') as Hle.
    rewrite handlers_of_off, occurrences_remove_first in Hle by done. lia.
  - apply IH.
    + intros t' Ht'. split; [by apply Hjs'|].
      etrans; [by apply occurrences_off_le|].
      apply Hall. by apply list_elem_of_further.
    + apply elem_of_cons in Ht as [?|?]; done.
Qed.

(** *** [on] and its returned function for any array of types *)

Lemma same_array_on_other s type h (k1 k2 : key) :
  k1 ≠ k2 →
  same_array (fst (_on type h s)) k1 k2 ↔ same_array s k1 k2.
Proof.
  intros Hne. unfold _on. simpl. destruct (get s type) as [[l a]|] eqn:Hget.
  - assert (∀ k, fst <$> get (store l (push h a) s) k = fst <$> get s k) as Hfst.
    { intros k. rewrite get_store.
      destruct (decide (all s !! k = Some l)) as [Hk|]; [|done].
      apply get_Some in Hget as [_ Hl].
      by rewrite (proj2 (get_Some s k l a) (conj Hk Hl)). }
    unfold same_array. rewrite !Hfst.
    rewrite <- !fmap_is_Some with (f := fst). by rewrite Hfst.
  - assert (∀ k, k ≠ type →
              fst <$> get s k ≠ Some (fresh_loc s)) as Hfresh.
    { intros k _ Hk. destruct (get s k) as [[l0 a0]|] eqn:Hk0; [|done].
      simpl in Hk. injection Hk as ->.
      apply get_Some in Hk0 as [Hk0 _]. by apply fresh_loc_all in Hk0. }
    unfold same_array.
    destruct (decide (k1 = type)) as [->|H1]; [|destruct (decide (k2 = type)) as [->|H2]].
    + rewrite get_set_new_same, get_set_new_other, Hget by done. simpl.
      split.
      * intros [_ Heq]. symmetry in Heq. by apply Hfresh in Heq.
      * intros [[? ?] _]. done.
    + rewrite get_set_new_same, get_set_new_other, Hget by done. simpl.
      split.
      * intros [_ Heq]. by apply Hfresh in Heq.
      * intros [[y Hy] Heq]. rewrite Hy in Heq. done.
    + by rewrite !get_set_new_other.
Qed.

Lemma same_array_off_any s type h (k1 k2 : key) :
  same_array (off type (Some h) s) k1 k2 ↔ same_array s k1 k2.
Proof.
  destruct (get s type) as [[l a]|] eqn:Hget; [|by rewrite off_absent].
  rewrite (off_handler _ _ _ _ _ Hget).
  assert (∀ a' k, fst <$> get (store l a' s) k = fst <$> get s k) as Hfst.
  { intros a' k. rewrite get_store.
    destruct (decide (all s !! k = Some l)) as [Hk|]; [|done].
    apply get_Some in Hget as [_ Hl].
    by rewrite (proj2 (get_Some s k l a) (conj Hk Hl)). }
  unfold same_array. rewrite !Hfst.
  rewrite <- !fmap_is_Some with (f := fst). by rewrite Hfst.
Qed.

Lemma hits_cons s t (types : list key) k :
  hits s (t :: types) k
  = (if decide (k = t ∨ same_array s t k)
     then S (hits s types k) else hits s types k).
Proof.
  unfold hits. rewrite filter_cons.
  destruct (decide (t = k ∨ same_array s t k)) as [H|H];
    destruct (decide (k = t ∨ same_array s t k)) as [H'|H']; try done.
  - destruct H'. destruct H as [->|?]; auto.
  - destruct H. destruct H' as [->|?]; auto.
Qed.

Lemma hits_ext s s' (types : list key) k :
  (∀ t, t ≠ k → same_array s' t k ↔ same_array s t k) →
  hits s' types k = hits s types k.
Proof.
  intros Hiff. induction types as [|t types IH]; [done|].
  rewrite !hits_cons, IH.
  destruct (decide (t = k)) as [->|Hne].
  - by rewrite !decide_True by by left.
  - destruct (decide (k = t ∨ same_array s t k)) as [[?|H]|H].
    + congruence.
    + rewrite decide_True; [done|]. right. by apply Hiff.
    + rewrite decide_False; [done|]. intros [?|H']; [congruence|].
      apply H. right. by apply Hiff.
Qed.

Lemma hits_on s type h (types : list key) k :
  hits (fst (_on type h s)) types k = hits s types k.
Proof. apply hits_ext. intros t Hne. by apply same_array_on_other. Qed.

Lemma hits_off s type h (types : list key) k :
  hits (off type (Some h) s) types k = hits s types k.
Proof. apply hits_ext. intros t _. apply same_array_off_any. Qed.

Lemma hits_positive s (types : list key) k :
  0 < hits s types k → ∃ t, t ∈ types ∧ handlers_of s k = handlers_of s t.
Proof.
  induction types as [|t types IH]; [by inversion 1|].
  rewrite hits_cons.
  destruct (decide (k = t ∨ same_array s t k)) as [[->|H]|H].
  - intros _. exists t. split; [apply list_elem_of_here | done].
  - intros _. exists t. split; [apply list_elem_of_here|].
    by apply same_array_handlers.
  - intros Hpos. destruct (IH Hpos) as (t' & Ht' & Heq).
    exists t'. split; [by apply list_elem_of_further | done].
Qed.

Lemma on_each_cons t (types : list key) h s :
  forEach (t :: types) (λ t acc, fst (_on t h acc)) s
  = forEach types (λ t acc, fst (_on t h acc)) (fst (_on t h s)).
Proof. done. Qed.

Lemma handlers_of_on_each (types : list key) h s k :
  handlers_of (forEach types (λ t acc, fst (_on t h acc)) s) k
  = handlers_of s k ++ replicate (hits s types k) h.
Proof.
  revert s. induction types as [|t types IH]; intros s.
  - simpl. by rewrite app_nil_r.
  - rewrite on_each_cons, IH, hits_on, handlers_of_on_any, hits_cons.
    destruct (decide (k = t ∨ same_array s t k)); [|done].
    by rewrite <- app_assoc.
Qed.

Lemma hits_on_each (types types' : list key) h s k :
  hits (forEach types (λ t acc, fst (_on t h acc)) s) types' k
  = hits s types' k.
Proof.
  revert s. induction types as [|t types IH]; intros s; [done|].
  by rewrite on_each_cons, IH, hits_on.
Qed.

Lemma hits_off_each (types types' : list key) h s k :
  hits (forEach types (λ t acc, off t (Some h) acc) s) types' k
  = hits s types' k.
Proof.
  revert s. induction types as [|t types IH]; intros s; [done|].
  change (forEach (t :: types) (λ t acc, off t (Some h) acc) s)
    with (forEach types (λ t acc, off t (Some h) acc) (off t (Some h) s)).
  by rewrite IH, hits_off.
Qed.

Lemma js_array_off_each (types : list key) h s k :
  (∀ t, t ∈ types → js_array (handlers_of s t)) →
  js_array (handlers_of s k) →
  js_array (handlers_of (forEach types (λ t acc, off t (Some h) acc) s) k).
Proof.
  revert s. induction types as [|t types IH]; intros s Hts Hk; [done|].
  change (forEach (t :: types) (λ t acc, off t (Some h) acc) s)
    with (forEach types (λ t acc, off t (Some h) acc) (off t (Some h) s)).
  pose proof (Hts t (list_elem_of_here _ _)) as Ht.
  apply IH; [|by apply js_array_off].
  intros t' Ht'. apply js_array_off; [done|].
  apply Hts. by apply list_elem_of_further.
Qed.

Lemma occurrences_iter_remove_first h n (a : list handler) :
  occurrences h (Nat.iter n (remove_first h) a) = occurrences h a - n.
Proof.
  induction n as [|n IH]; simpl; [lia|].
  rewrite occurrences_remove_first, IH. lia.
Qed.

Lemma hits_listed s (types : list key) t : t ∈ types → 0 < hits s types t.
Proof.
  induction types as [|t0 types IH]; [by intros ?%elem_of_nil|].
  rewrite hits_cons. intros [->|Hin]%elem_of_cons.
  - rewrite decide_True by by left. lia.
  - destruct (decide (t = t0 ∨ same_array s t0 t)); [lia | by apply IH].
Qed.

Lemma handlers_of_off_each (types : list key) h s2 k :
  (∀ t, t ∈ types → js_array (handlers_of s2 t)) →
  handlers_of (forEach types (λ t acc, off t (Some h) acc) s2) k
  = Nat.iter (hits s2 types k) (remove_first h) (handlers_of s2 k).
Proof.
  revert s2. induction types as [|t types IH]; intros s2 Hjs; [done|].
  pose proof (Hjs t (list_elem_of_here _ _)) as Ht.
  change (forEach (t :: types) (λ t acc, off t (Some h) acc) s2)
    with (forEach types (λ t acc, off t (Some h) acc) (off t (Some h) s2)).
  rewrite IH.
  - rewrite hits_off, handlers_of_off_any, hits_cons by done.
    destruct (decide (k = t ∨ same_array s2 t k)); [|done].
    by rewrite Nat.iter_succ_r.
  - intros t' Ht'. apply js_array_off; [done|].
    apply Hjs. by apply list_elem_of_further.
Qed.

(** X5.  [on(type, h)], for one type or an array of types of any length
    (empty, or naming a type more than once), pushes [h] onto the
    sequence of a key once for every listed type that is this key or
    holds the same array, and changes no sequence otherwise: a key that
    is not listed and shares its array with no listed type reads what it
    read before, and where no listed type shares an array with [k], [h]
    is added to [k] as often as [k] is listed. *)
Theorem on_pushes_once_per_listed_type s (targ : types_arg) h k :
  handlers_of (fst (on targ h s)) k
  = handlers_of s k ++ replicate (hits s (types_of targ s) k) h
  ∧ (k ∉ types_of targ s →
     (∀ t, t ∈ types_of targ s → ¬ same_array s t k) →
     handlers_of (fst (on targ h s)) k = handlers_of s k)
  ∧ ((∀ t, t ∈ types_of targ s → t ≠ k → ¬ same_array s t k) →
     handlers_of (fst (on targ h s)) k
     = handlers_of s k
       ++ replicate (length (filter (λ t, t = k) (types_of targ s))) h).
Proof.
  rewrite on_state_on_each, handlers_of_on_each.
  split_and!; [done | |].
  - intros Hnot Hsep.
    assert (hits s (types_of targ s) k = 0) as ->; [|by rewrite app_nil_r].
    induction (types_of targ s) as [|t types IH]; [done|].
    rewrite hits_cons. apply not_elem_of_cons in Hnot as [Hne Hnot].
    rewrite decide_False.
    + apply IH; [done|]. intros t' Ht'. apply Hsep. by apply list_elem_of_further.
    + intros [?|Hs]; [done|]. by apply (Hsep t (list_elem_of_here _ _)).
  - intros Hsep. f_equal. f_equal.
    induction (types_of targ s) as [|t types IH]; [done|].
    rewrite hits_cons, filter_cons, IH.
    + destruct (decide (t = k)) as [->|Hne].
      * by rewrite decide_True by by left.
      * rewrite decide_False; [done|]. intros [?|Hs]; [done|].
        by apply (Hsep t (list_elem_of_here _ _)).
    + intros t' Ht'. apply Hsep. by apply list_elem_of_further.
Qed.

Lemma handlers_of_unsubscribe s (targ : types_arg) h s2 k :
  (∀ t, t ∈ types_of targ s2 → js_array (handlers_of s2 t)) →
  handlers_of (snd (on targ h s) s2) k
  = Nat.iter (hits s2 (types_of targ s2) k) (remove_first h) (handlers_of s2 k).
Proof.
  intros Hjs. by rewrite unsubscribe_off_each, handlers_of_off_each.
Qed.

Lemma occurrences_unsubscribe s (targ : types_arg) h s2 k :
  (∀ t, t ∈ types_of targ s2 → js_array (handlers_of s2 t)) →
  occurrences h (handlers_of (snd (on targ h s) s2) k)
  = occurrences h (handlers_of s2 k) - hits s2 (types_of targ s2) k.
Proof.
  intros Hjs. rewrite handlers_of_unsubscribe by done.
  apply occurrences_iter_remove_first.
Qed.

Lemma js_array_unsubscribe s (targ : types_arg) h s2 k :
  (∀ t, t ∈ types_of targ s2 → js_array (handlers_of s2 t)) →
  js_array (handlers_of s2 k) →
  js_array (handlers_of (snd (on targ h s) s2) k).
Proof.
  intros Hjs Hk. rewrite unsubscribe_off_each. by apply js_array_off_each.
Qed.

(** X6.  The function [on(types, h)] returns reads the array [types]
    when it is invoked, not when [on] was called: in any state whose
    arrays under the types listed then are within the length bound, it
    removes from the sequence of each key the first occurrences of [h],
    one for every type the array lists at that time that is this key or
    holds the same array; the sequence of a key that none of them reaches
    is left as it is.  So a type the caller has added to the array since
    [on] is unsubscribed too, and one it has taken out is not. *)
Theorem unsubscribe_removes_once_per_listed_type s (targ : types_arg) h s2 k :
  (∀ t, t ∈ types_of targ s2 → js_array (handlers_of s2 t)) →
  handlers_of (snd (on targ h s) s2) k
  = Nat.iter (hits s2 (types_of targ s2) k) (remove_first h) (handlers_of s2 k)
  ∧ (hits s2 (types_of targ s2) k = 0 →
     handlers_of (snd (on targ h s) s2) k = handlers_of s2 k)
  ∧ (k ∈ types_of targ s2 → occurrences h (handlers_of s2 k) ≤ 1 →
     h ∉ handlers_of (snd (on targ h s) s2) k).
Proof.
  intros Hjs. rewrite handlers_of_unsubscribe by done.
  split_and!; [done | by intros -> |].
  intros Hk Honce. apply occurrences_absent.
  rewrite occurrences_iter_remove_first.
  pose proof (hits_listed s2 _ _ Hk). lia.
Qed.

(** X7.  Registering and then unsubscribing is a round trip on every
    handler sequence: if [h] was registered under none of the listed
    types, then after [const u = on(type, h); u()] every key holds the
    handlers it held before, in the same order. *)
Theorem on_then_unsubscribe_restores s (targ : types_arg) h :
  (∀ t, t ∈ types_of targ s → h ∉ handlers_of s t) →
  (∀ t, t ∈ types_of targ s → js_array (handlers_of (fst (on targ h s)) t)) →
  ∀ k, handlers_of (snd (on targ h s) (fst (on targ h s))) k = handlers_of s k.
Proof.
  intros Hnot Hjs k.
  rewrite handlers_of_unsubscribe by by rewrite types_of_on.
  rewrite types_of_on.
  rewrite on_state_on_each, hits_on_each, handlers_of_on_each.
  destruct (hits s (types_of targ s) k) as [|n] eqn:Hhits.
  - simpl. by rewrite app_nil_r.
  - apply remove_first_replicate.
    destruct (hits_positive s (types_of targ s) k) as (t & Ht & ->); [lia|].
    by apply Hnot.
Qed.

Lemma filter_other_remove_first h (a : list handler) :
  filter (λ x, x ≠ h) (remove_first h a) = filter (λ x, x ≠ h) a.
Proof.
  induction a as [|x a IH]; [done|]. simpl.
  destruct (decide (x = h)) as [->|Hne].
  - rewrite filter_cons. by rewrite decide_False by (intros Hh; by apply Hh).
  - by rewrite !filter_cons, IH.
Qed.

Lemma filter_other_iter_remove_first n h (a : list handler) :
  filter (λ x, x ≠ h) (Nat.iter n (remove_first h) a) = filter (λ x, x ≠ h) a.
Proof.
  induction n as [|n IH]; [done|]. simpl.
  by rewrite filter_other_remove_first.
Qed.

(** C3, as the code has it.  The function [u] that [on(type, h)]
    returns calls [off(t, h)] for every type [t] its argument lists when
    [u] is invoked.  In a state whose arrays under these types are within
    the length bound, it removes from the sequence of each key the first
    remaining occurrences of [h], one for every listed type that is this
    key or holds the same array (for a single type: the first remaining
    occurrence), so the number of occurrences of [h] under a key drops by
    that number; the handlers other than [h] stay under every key, in
    their order.  Where [h] occurs under none of the listed types, [u]
    changes nothing at all.  Where [h] occurs at most once under each of
    them, [u] removes [h] from all of them and a second invocation
    changes nothing.  Where [h] occurs under a listed type more often
    than one invocation removes (for a single type: at least twice), [h]
    is still registered there after [u], and a second invocation removes
    a further occurrence. *)
Theorem unsubscribe_once_then_noop s (targ : types_arg) h s2 :
  (∀ t, t ∈ types_of targ s2 → js_array (handlers_of s2 t)) →
  (∀ k, handlers_of (snd (on targ h s) s2) k
        = Nat.iter (hits s2 (types_of targ s2) k) (remove_first h)
            (handlers_of s2 k))
  ∧ (∀ type, targ = One type →
       handlers_of (snd (on targ h s) s2) type
       = remove_first h (handlers_of s2 type))
  ∧ (∀ k, occurrences h (handlers_of (snd (on targ h s) s2) k)
          = occurrences h (handlers_of s2 k)
            - hits s2 (types_of targ s2) k)
  ∧ (∀ k, filter (λ x, x ≠ h) (handlers_of (snd (on targ h s) s2) k)
          = filter (λ x, x ≠ h) (handlers_of s2 k))
  ∧ ((∀ t, t ∈ types_of targ s2 → h ∉ handlers_of s2 t) →
     snd (on targ h s) s2 = s2)
  ∧ ((∀ t, t ∈ types_of targ s2 → occurrences h (handlers_of s2 t) ≤ 1) →
     (∀ t, t ∈ types_of targ s2 → h ∉ handlers_of (snd (on targ h s) s2) t)
     ∧ snd (on targ h s) (snd (on targ h s) s2) = snd (on targ h s) s2)
  ∧ (∀ t, t ∈ types_of targ s2 →
       hits s2 (types_of targ s2) t < occurrences h (handlers_of s2 t) →
       h ∈ handlers_of (snd (on targ h s) s2) t
       ∧ occurrences h
           (handlers_of (snd (on targ h s) (snd (on targ h s) s2)) t)
         < occurrences h (handlers_of (snd (on targ h s) s2) t)).
Proof.
  intros Hjs.
  assert (∀ s3,
    (∀ t, t ∈ types_of targ s3 →
       js_array (handlers_of s3 t) ∧ h ∉ handlers_of s3 t) →
    snd (on targ h s) s3 = s3) as Hnoop.
  { intros s3 Hall. rewrite unsubscribe_off_each. by apply off_each_absent. }
  assert (∀ t, t ∈ types_of targ s2 →
            js_array (handlers_of (snd (on targ h s) s2) t)) as Hjs'.
  { intros t Ht. apply js_array_unsubscribe; [done | by apply Hjs]. }
  split_and!.
  - intros k. by apply handlers_of_unsubscribe.
  - intros type ->. rewrite handlers_of_unsubscribe by done.
    cbn [types_of]. rewrite hits_cons, decide_True by by left. done.
  - intros k. by apply occurrences_unsubscribe.
  - intros k. rewrite handlers_of_unsubscribe by done.
    apply filter_other_iter_remove_first.
  - intros Hnot. apply Hnoop. intros t Ht. split; [by apply Hjs | by apply Hnot].
  - intros Honce.
    assert (∀ t, t ∈ types_of targ s2 → h ∉ handlers_of (snd (on targ h s) s2) t)
      as Hgone.
    { intros t Ht. apply occurrences_absent.
      rewrite occurrences_unsubscribe by done.
      pose proof (hits_listed s2 _ _ Ht). pose proof (Honce t Ht). lia. }
    split; [done|]. apply Hnoop. rewrite types_of_unsubscribe.
    intros t Ht. split; [by apply Hjs' | by apply Hgone].
  - intros t Ht Hmore.
    assert (0 < occurrences h (handlers_of (snd (on targ h s) s2) t)) as Hleft.
    { rewrite occurrences_unsubscribe by done. lia. }
    split.
    + destruct (decide (h ∈ handlers_of (snd (on targ h s) s2) t)) as [|Hnot];
        [done|]. apply occurrences_absent in Hnot. lia.
    + rewrite (occurrences_unsubscribe s targ h (snd (on targ h s) s2))
        by (rewrite types_of_unsubscribe; exact Hjs').
      rewrite types_of_unsubscribe.
      rewrite unsubscribe_off_each at 2. rewrite hits_off_each.
      pose proof (hits_listed s2 _ _ Ht). lia.
Qed.

(** *** What [on] and [off] never do *)

Lemma dom_all_on s type h :
  dom (all (fst (_on type h s))) = {[type]} ∪ dom (all s).
Proof.
  unfold _on. simpl. destruct (get s type) as [[l a]|] eqn:Hget; simpl.
  - apply get_Some in Hget as [Hk _]. symmetry.
    apply subseteq_union_1_L, singleton_subseteq_l, elem_of_dom. eauto.
  - apply dom_insert_L.
Qed.

(** X8.  Keys are never deleted.  [off], with or without a handler,
    leaves the set of keys of the [Map] as it is; [on] adds the listed
    types to it and takes none away.  So a type first created by
    [on(type, h)] stays in the [Map] after the returned function has run,
    holding an empty array. *)
Theorem keys_are_never_deleted s (targ : types_arg) type h oh :
  dom (all (off type oh s)) = dom (all s)
  ∧ dom (all (fst (on targ h s)))
    = list_to_set (types_of targ s) ∪ dom (all s)
  ∧ (∀ s2, dom (all (snd (on targ h s) s2)) = dom (all s2))
  ∧ (get s type = None →
     get (snd (on (One type) h s) (fst (on (One type) h s))) type
     = Some (fresh_loc s, [])).
Proof.
  assert (∀ t o s0, dom (all (off t o s0)) = dom (all s0)) as Hoff.
  { intros t o s0. unfold off.
    destruct (get s0 t) as [[l a]|] eqn:Hget; [|done].
    destruct o as [h'|]; [done|]. simpl.
    apply get_Some in Hget as [Hk _]. rewrite dom_insert_L.
    apply subseteq_union_1_L, singleton_subseteq_l, elem_of_dom. eauto. }
  split_and!.
  - apply Hoff.
  - rewrite on_state_on_each. generalize (types_of targ s). intros types.
    revert s. induction types as [|t types IH]; intros s.
    + simpl. by rewrite (left_id_L ∅ (∪)).
    + rewrite on_each_cons, IH, dom_all_on. simpl.
      by rewrite (assoc_L (∪)), (comm_L (∪) _ {[t]}).
  - intros s2. rewrite unsubscribe_off_each. generalize (types_of targ s2).
    intros types. revert s2.
    induction types as [|t types IH]; intros s2; [done|].
    change (forEach (t :: types) (λ t acc, off t (Some h) acc) s2)
      with (forEach types (λ t acc, off t (Some h) acc) (off t (Some h) s2)).
    by rewrite IH, Hoff.
  - intros Hget.
    change (get (off type (Some h) (fst (_on type h s))) type
            = Some (fresh_loc s, [])).
    unfold _on. simpl. rewrite Hget.
    rewrite (off_handler _ _ _ _ _ (get_set_new_same s type [h])).
    rewrite splice_indexOf
      by (unfold js_array, max_array_length; simpl; lia).
    rewrite (get_store_same _ _ _ _ _ (get_set_new_same s type [h])).
    simpl. by rewrite decide_True.
Qed.

(** X10.  [off(type)] and then [on(type, h)]: the sequence of [type] is
    [h] alone, on an array of its own, so that no handler removed by the
    [off] comes back and every other key, also one that shared the old
    array of [type], reads what it read before the two calls. *)
Theorem off_then_on_starts_anew s type l a h :
  get s type = Some (l, a) →
  handlers_of (fst (on (One type) h (off type None s))) type = [h]
  ∧ (∀ k, k ≠ type →
       handlers_of (fst (on (One type) h (off type None s))) k
       = handlers_of s k
       ∧ ¬ same_array (fst (on (One type) h (off type None s))) type k).
Proof.
  intros Hget. rewrite (off_all _ _ _ _ Hget).
  pose proof (get_set_new_same s type []) as Hnew.
  assert (∀ k, k ≠ type → ¬ same_array (set_new type [] s) type k) as Hsep.
  { intros k Hne Hsame.
    apply (same_array_holds _ _ k _ _ Hnew) in Hsame. simpl in Hsame.
    rewrite lookup_insert_ne in Hsame by done.
    by apply fresh_loc_all in Hsame. }
  split.
  - rewrite handlers_of_on_One. by rewrite (handlers_of_Some _ _ _ _ Hnew).
  - intros k Hne. change (fst (on (One type) h (set_new type [] s)))
      with (fst (_on type h (set_new type [] s))). split.
    + rewrite handlers_of_on_any, decide_False.
      * unfold handlers_of. by rewrite get_set_new_other.
      * intros [?|?]; [done|]. by apply (Hsep k).
    + rewrite same_array_on by done. by apply Hsep.
Qed.

(** X12.  [off(type, h)] takes away nothing but one [h]: under every
    key the handlers other than [h] stay, in their order; the [Map]
    itself is not written to; a key other than [type] that does not
    share the array of [type] keeps its whole sequence, [h] included;
    and no sequence loses more than one handler. *)
Theorem off_keeps_other_handlers s type h k :
  js_array (handlers_of s type) →
  filter (λ x, x ≠ h) (handlers_of (off type (Some h) s) k)
  = filter (λ x, x ≠ h) (handlers_of s k)
  ∧ all (off type (Some h) s) = all s
  ∧ (k ≠ type → ¬ same_array s type k →
     handlers_of (off type (Some h) s) k = handlers_of s k)
  ∧ length (handlers_of s k) - 1 ≤ length (handlers_of (off type (Some h) s) k).
Proof.
  intros Hjs. rewrite handlers_of_off_any by done. split_and!.
  - destruct (decide (k = type ∨ same_array s type k)); [|done].
    apply filter_other_remove_first.
  - unfold off. by destruct (get s type) as [[l a]|].
  - intros Hne Hsep. rewrite decide_False; [done|]. intros [?|?]; done.
  - destruct (decide (k = type ∨ same_array s type k)); [|lia].
    generalize (handlers_of s k). intros a.
    induction a as [|x a IH]; [done|]. simpl.
    destruct (decide (x = h)); simpl; lia.
Qed.

End RegistryFacts.

(** ** Facts about dispatch *)

Section EmitFacts.

Context {value exn world : Type}.

Variable run : handler → args value → state world → outcome exn world.

Implicit Types (s : state world) (k type : key) (h : handler)
  (x : args value) (hs pre post : list handler) (v : value)
  (tr : list (call value)) (o : outcome exn world).

Lemma invoke_each_app x hs1 hs2 s :
  invoke_each run x (hs1 ++ hs2) s
  = match invoke_each run x hs1 s with
    | (tr1, Ret s1) =>
        let '(tr2, o) := invoke_each run x hs2 s1 in (tr1 ++ tr2, o)
    | (tr1, Throw e s1) => (tr1, Throw e s1)
    end.
Proof.
  revert s. induction hs1 as [|h hs1 IH]; intros s; simpl.
  - by destruct (invoke_each run x hs2 s).
  - destruct (run h x s) as [s1|e s1]; [|done].
    rewrite IH. destruct (invoke_each run x hs1 s1) as [tr1 [s2|e s2]]; [|done].
    by destruct (invoke_each run x hs2 s2).
Qed.

(** When the iteration completes, every handler of the snapshot was
    called, once, in order. *)
Lemma invoke_each_ret x hs s tr s' :
  invoke_each run x hs s = (tr, Ret s') → tr = calls x hs.
Proof.
  revert s tr. induction hs as [|h hs IH]; intros s tr; simpl.
  - by intros [= <- _].
  - destruct (run h x s) as [s1|e s1]; [|done].
    destruct (invoke_each run x hs s1) as [tr1 o1] eqn:Hrest.
    intros [= <- ->]. by rewrite (IH _ _ Hrest).
Qed.

(** A handler that throws after the handlers before it returned ends the
    iteration: the handlers after it are not called. *)
Lemma invoke_each_throw_at x pre h post s tr0 s0 e s1 :
  invoke_each run x pre s = (tr0, Ret s0) →
  run h x s0 = Throw e s1 →
  invoke_each run x (pre ++ h :: post) s = (calls x (pre ++ [h]), Throw e s1).
Proof.
  intros Hpre Hh. rewrite invoke_each_app, Hpre. simpl. rewrite Hh.
  rewrite (invoke_each_ret _ _ _ _ _ Hpre). unfold calls. by rewrite map_app.
Qed.

(** Conversely, an iteration that throws was ended by one of its
    handlers. *)
Lemma invoke_each_throw_inv x hs s tr e s' :
  invoke_each run x hs s = (tr, Throw e s') →
  ∃ pre h post tr0 s0,
    hs = pre ++ h :: post ∧ invoke_each run x pre s = (tr0, Ret s0)
    ∧ run h x s0 = Throw e s' ∧ tr = calls x (pre ++ [h]).
Proof.
  revert s tr. induction hs as [|h hs IH]; intros s tr; simpl; [done|].
  destruct (run h x s) as [s1|e1 s1] eqn:Hh.
  - destruct (invoke_each run x hs s1) as [tr1 o1] eqn:Hrest.
    intros [= <- ->].
    destruct (IH _ _ Hrest) as (pre & h' & post & tr0 & s0 & -> & Hpre & Hh' & ->).
    exists (h :: pre), h', post, ((h, x) :: tr0), s0. simpl.
    rewrite Hh, Hpre. done.
  - intros [= <- <- <-]. exists [], h, hs, [], s. done.
Qed.


(** A property of the state that every call keeps holds when the
    iteration completes. *)
Lemma invoke_each_keeps (P : state world → Prop) x hs s tr s' :
  (∀ h' s0, h' ∈ hs → P s0 → P (state_of (run h' x s0))) →
  P s →
  invoke_each run x hs s = (tr, Ret s') →
  P s'.
Proof.
  revert s tr. induction hs as [|h hs IH]; intros s tr Hkeep HP; simpl.
  - by intros [= _ <-].
  - pose proof (Hkeep h s (list_elem_of_here _ _) HP) as HP'.
    destruct (run h x s) as [s2|]; [|done]. simpl in HP'.
    destruct (invoke_each run x hs s2) as [tr1 o1] eqn:Hrest.
    intros [= _ ->]. eapply IH; [|done..].
    intros h' s0 Hh'. apply Hkeep. by apply list_elem_of_further.
Qed.

(** A block of [emit] calls the handlers its key holds when the block
    starts; an absent key holds none. *)
Lemma dispatch_handlers_of k x s :
  dispatch run k x s = invoke_each run x (handlers_of s k) s.
Proof.
  unfold dispatch, handlers_of, slice.
  by destruct (get s k) as [[l a]|].
Qed.

(** [emit] is its two blocks, one after the other; the second reads the
    state the first leaves. *)
Lemma emit_blocks type v s :
  emit run type v s
  = match invoke_each run (Typed v) (handlers_of s type) s with
    | (tr1, Ret s1) =>
        let '(tr2, o) :=
          invoke_each run (Wild type v) (handlers_of s1 wildcard) s1 in
        (tr1 ++ tr2, o)
    | (tr1, Throw e s1) => (tr1, Throw e s1)
    end.
Proof.
  unfold emit. rewrite dispatch_handlers_of.
  destruct (invoke_each run (Typed v) (handlers_of s type) s)
    as [tr1 [s1|e s1]]; [|done].
  by rewrite dispatch_handlers_of.
Qed.

(** An [emit] that returns has run both blocks to their ends. *)
Lemma emit_ret type v s tr s' :
  emit run type v s = (tr, Ret s') →
  ∃ s1,
    dispatch run type (Typed v) s = (calls (Typed v) (handlers_of s type), Ret s1)
    ∧ dispatch run wildcard (Wild type v) s1
      = (calls (Wild type v) (handlers_of s1 wildcard), Ret s')
    ∧ tr = calls (Typed v) (handlers_of s type)
           ++ calls (Wild type v) (handlers_of s1 wildcard).
Proof.
  rewrite emit_blocks, !dispatch_handlers_of.
  destruct (invoke_each run (Typed v) (handlers_of s type) s)
    as [tr1 [s1|e s1]] eqn:H1; [|done].
  destruct (invoke_each run (Wild type v) (handlers_of s1 wildcard) s1)
    as [tr2 o2] eqn:H2.
  intros [= <- ->]. exists s1.
  rewrite dispatch_handlers_of, H2.
  rewrite (invoke_each_ret _ _ _ _ _ H1), (invoke_each_ret _ _ _ _ _ H2). done.
Qed.

Lemma elem_of_calls h x x' hs : (h, x) ∈ calls x' hs ↔ x = x' ∧ h ∈ hs.
Proof.
  unfold calls. rewrite list_elem_of_fmap. split.
  - intros (h' & [= -> ->] & Hin). done.
  - intros [-> Hin]. by exists h.
Qed.

(** A handler is called once the handlers before it have returned. *)
Lemma invoke_each_reaches x pre h post s tr0 s0 :
  invoke_each run x pre s = (tr0, Ret s0) →
  (h, x) ∈ fst (invoke_each run x (pre ++ h :: post) s).
Proof.
  intros Hpre. rewrite invoke_each_app, Hpre. simpl.
  destruct (run h x s0) as [s1|e s1]; simpl.
  - destruct (invoke_each run x post s1) as [tr1 o1]. simpl.
    apply elem_of_app. right. apply list_elem_of_here.
  - apply elem_of_app. right. apply list_elem_of_here.
Qed.

(** The calls of [emit] start with the calls of its first block. *)
Lemma emit_trace_typed type v s :
  ∃ tr2,
    fst (emit run type v s)
    = fst (invoke_each run (Typed v) (handlers_of s type) s) ++ tr2.
Proof.
  rewrite emit_blocks.
  destruct (invoke_each run (Typed v) (handlers_of s type) s)
    as [tr1 [s1|e s1]]; simpl.
  - destruct (invoke_each run (Wild type v) (handlers_of s1 wildcard) s1)
      as [tr2 o2]. by exists tr2.
  - exists []. by rewrite app_nil_r.
Qed.


Lemma invoke_each_calls_subset x hs s c :
  c ∈ fst (invoke_each run x hs s) → c ∈ calls x hs.
Proof.
  revert s. induction hs as [|h hs IH]; intros s; simpl; [done|].
  destruct (run h x s) as [s1|e s1]; simpl.
  - destruct (invoke_each run x hs s1) as [tr1 o1] eqn:Hrest. simpl.
    intros [->|Hc]%elem_of_cons; [apply list_elem_of_here|].
    apply list_elem_of_further. apply (IH s1). by rewrite Hrest.
  - intros [->|[]%elem_of_nil]%elem_of_cons. apply list_elem_of_here.
Qed.

(** Where a call made by [emit] comes from. *)
Lemma emit_call_inv type v s h x :
  (h, x) ∈ fst (emit run type v s) →
  (x = Typed v ∧ h ∈ handlers_of s type)
  ∨ (x = Wild type v
     ∧ ∃ tr1 s1,
         dispatch run type (Typed v) s = (tr1, Ret s1)
         ∧ h ∈ handlers_of s1 wildcard).
Proof.
  rewrite emit_blocks.
  destruct (invoke_each run (Typed v) (handlers_of s type) s)
    as [tr1 [s1|e s1]] eqn:H1.
  - destruct (invoke_each run (Wild type v) (handlers_of s1 wildcard) s1)
      as [tr2 o2] eqn:H2. simpl.
    intros [Hc|Hc]%elem_of_app.
    + left. apply elem_of_calls, (invoke_each_calls_subset _ _ s).
      by rewrite H1.
    + right. assert ((h, x) ∈ calls (Wild type v) (handlers_of s1 wildcard))
        as [-> Hin]%elem_of_calls.
      { apply (invoke_each_calls_subset _ _ s1). by rewrite H2. }
      split; [done|]. exists tr1, s1. by rewrite dispatch_handlers_of.
  - simpl. intros Hc. left.
    apply elem_of_calls, (invoke_each_calls_subset _ _ s). by rewrite H1.
Qed.

(** Handlers that all return are all called, and the iteration
    returns. *)
Lemma invoke_each_all_return x hs s :
  (∀ h s0, h ∈ hs → ∃ s1, run h x s0 = Ret s1) →
  ∃ s', invoke_each run x hs s = (calls x hs, Ret s').
Proof.
  revert s. induction hs as [|h hs IH]; intros s Hret; [by exists s|].
  destruct (Hret h s (list_elem_of_here _ _)) as [s1 Hh].
  destruct (IH s1) as [s' Hrest].
  { intros h' s0 Hh'. apply Hret. by apply list_elem_of_further. }
  exists s'. simpl. by rewrite Hh, Hrest.
Qed.

(** C5.  In an [emit(type, v)] where no invoked handler throws, the
    calls made are first [h(v)] for every handler [h] that [type] holds
    when [emit] starts, in order, and then [h(type, v)] for every handler
    the wildcard key holds when the first block has ended.  So every call
    of a type-matched handler comes before every call of a wildcard
    handler, and [ht(v)] comes before [hw(type, v)] for a registered [ht]
    and a wildcard handler [hw] (the wildcard sequence is the one [emit]
    started with when the type-matched handlers leave it alone). *)
Theorem typed_handlers_before_wildcard type v s tr s' :
  emit run type v s = (tr, Ret s') →
  ∃ s1,
    dispatch run type (Typed v) s
      = (calls (Typed v) (handlers_of s type), Ret s1)
    ∧ tr = calls (Typed v) (handlers_of s type)
           ++ calls (Wild type v) (handlers_of s1 wildcard)
    ∧ (∀ i j h1 h2 v1 k2 v2,
         tr !! i = Some (h1, Typed v1) → tr !! j = Some (h2, Wild k2 v2) →
         i < j)
    ∧ (∀ ht hw, ht ∈ handlers_of s type → hw ∈ handlers_of s1 wildcard →
         ∃ tr_a tr_b tr_c,
           tr = tr_a ++ (ht, Typed v) :: tr_b ++ (hw, Wild type v) :: tr_c)
    ∧ ((∀ h s0, h ∈ handlers_of s type →
          handlers_of (state_of (run h (Typed v) s0)) wildcard
          = handlers_of s0 wildcard) →
       handlers_of s1 wildcard = handlers_of s wildcard).
Proof.
  intros Hemit. destruct (emit_ret _ _ _ _ _ Hemit) as (s1 & H1 & H2 & ->).
  exists s1. split_and!; [done | done | | |].
  - intros i j h1 h2 v1 k2 v2 Hi Hj.
    destruct (decide (i < length (calls (Typed v) (handlers_of s type))))
      as [Hlt|Hge].
    + destruct (decide (j < length (calls (Typed v) (handlers_of s type))))
        as [Hjlt|Hjge]; [|apply Nat.nlt_ge in Hjge; by eapply Nat.lt_le_trans].
      rewrite lookup_app_l in Hj by done.
      apply list_elem_of_lookup_2, elem_of_calls in Hj as [? _]. done.
    + rewrite lookup_app_r in Hi by (apply Nat.nlt_ge; exact Hge).
      apply list_elem_of_lookup_2, elem_of_calls in Hi as [? _]. done.
  - intros ht hw Hht Hhw.
    apply list_elem_of_split in Hht as (t1 & t2 & ->).
    apply list_elem_of_split in Hhw as (w1 & w2 & ->).
    exists (calls (Typed v) t1), (calls (Typed v) t2 ++ calls (Wild type v) w1),
      (calls (Wild type v) w2).
    unfold calls. rewrite !map_app. simpl. by rewrite <- !app_assoc.
  - intros Hkeep. rewrite dispatch_handlers_of in H1.
    eapply (invoke_each_keeps
              (λ s0, handlers_of s0 wildcard = handlers_of s wildcard));
      [|reflexivity|exact H1].
    intros h' s0 Hh' Hs0. simpl. by rewrite Hkeep.
Qed.

(** C6.  A handler that throws ends [emit] there.  If, in the block for
    [type], the handlers [pre] have returned and the next one, [h], throws
    [e], then [emit] ends with that same [e], in the state [h] left, and
    the calls it made are those of [pre] and [h]: the handlers [post]
    after [h] and the whole wildcard block are skipped.  If the block for
    [type] has completed and [h] throws in the wildcard block, [emit]
    likewise ends with [e] and calls no wildcard handler after [h]. *)
Theorem throwing_handler_ends_emit type v s :
  (∀ l pre h post tr0 s0 e s1,
     get s type = Some (l, pre ++ h :: post) →
     invoke_each run (Typed v) pre s = (tr0, Ret s0) →
     run h (Typed v) s0 = Throw e s1 →
     emit run type v s = (calls (Typed v) (pre ++ [h]), Throw e s1))
  ∧ (∀ tr1 s1 l pre h post tr0 s0 e s2,
       dispatch run type (Typed v) s = (tr1, Ret s1) →
       get s1 wildcard = Some (l, pre ++ h :: post) →
       invoke_each run (Wild type v) pre s1 = (tr0, Ret s0) →
       run h (Wild type v) s0 = Throw e s2 →
       emit run type v s
       = (tr1 ++ calls (Wild type v) (pre ++ [h]), Throw e s2)).
Proof.
  split.
  - intros l pre h post tr0 s0 e s1 Hget Hpre Hh.
    rewrite emit_blocks, (handlers_of_Some _ _ _ _ Hget).
    by rewrite (invoke_each_throw_at _ _ _ post _ _ _ _ _ Hpre Hh).
  - intros tr1 s1 l pre h post tr0 s0 e s2 H1 Hget Hpre Hh.
    rewrite dispatch_handlers_of in H1.
    rewrite emit_blocks, H1, (handlers_of_Some _ _ _ _ Hget).
    by rewrite (invoke_each_throw_at _ _ _ post _ _ _ _ _ Hpre Hh).
Qed.

(** C7.  Where [type] holds an array, [off(type)] without a handler puts
    a new, empty array under [type]: the key stays, every other key reads
    what it read before (the old array itself is not emptied), and an
    [emit(type, v)] that follows calls no type-matched handler: it makes
    exactly the calls of the wildcard block, which for a [type] other
    than ['*'] are those of the wildcard handlers registered before. *)
Theorem off_without_handler_empties_type type s l a :
  get s type = Some (l, a) →
  get (off type None s) type = Some (fresh_loc s, [])
  ∧ is_Some (all (off type None s) !! type)
  ∧ (∀ k, k ≠ type → get (off type None s) k = get s k)
  ∧ heap (off type None s) !! l = Some a
  ∧ (∀ v, emit run type v (off type None s)
          = dispatch run wildcard (Wild type v) (off type None s))
  ∧ (∀ v, type ≠ wildcard →
          emit run type v (off type None s)
          = invoke_each run (Wild type v) (handlers_of s wildcard)
              (off type None s)).
Proof.
  intros Hget. rewrite (off_all _ _ _ _ Hget).
  pose proof (get_set_new_same s type []) as Hnew.
  assert (∀ v, emit run type v (set_new type [] s)
               = dispatch run wildcard (Wild type v) (set_new type [] s)) as Hemit.
  { intros v. unfold emit. rewrite dispatch_handlers_of.
    rewrite (handlers_of_Some _ _ _ _ Hnew). simpl.
    by destruct (dispatch run wildcard (Wild type v) (set_new type [] s)). }
  split_and!.
  - done.
  - apply get_Some in Hnew as [-> _]. by eexists.
  - intros k Hk. by apply get_set_new_other.
  - simpl. apply get_Some in Hget as [_ Hl].
    rewrite lookup_insert_ne; [done|]. intros <-.
    by rewrite fresh_loc_heap in Hl.
  - done.
  - intros v Hne. rewrite Hemit, dispatch_handlers_of.
    unfold handlers_of at 1. by rewrite get_set_new_other.
Qed.

(** C9.  Where [type] holds no handler (the key is absent, or holds an
    empty array), [emit(type, v)] calls no type-matched handler and does
    not fail in that block: it is exactly the wildcard block, run in the
    state [emit] started in.  Every call it makes is [w(type, v)] for a
    wildcard handler [w]; each wildcard handler is called once those
    before it have returned; when they all return, [emit] returns and
    has called all of them, in order; and [emit] throws only what a
    wildcard handler threw.  With no wildcard handler either, [emit]
    returns, has called nothing, and leaves the state as it was. *)
Theorem emit_without_handlers type v s :
  get s type = None ∨ (∃ l, get s type = Some (l, [])) →
  emit run type v s = dispatch run wildcard (Wild type v) s
  ∧ (∀ h x, (h, x) ∈ fst (emit run type v s) →
       x = Wild type v ∧ h ∈ handlers_of s wildcard)
  ∧ (∀ wpre w wpost tr0 s0,
       handlers_of s wildcard = wpre ++ w :: wpost →
       invoke_each run (Wild type v) wpre s = (tr0, Ret s0) →
       (w, Wild type v) ∈ fst (emit run type v s))
  ∧ ((∀ w s0, w ∈ handlers_of s wildcard →
        ∃ s1, run w (Wild type v) s0 = Ret s1) →
     ∃ s', emit run type v s
           = (calls (Wild type v) (handlers_of s wildcard), Ret s'))
  ∧ (∀ tr s', emit run type v s = (tr, Ret s') →
       tr = calls (Wild type v) (handlers_of s wildcard))
  ∧ (∀ tr e s', emit run type v s = (tr, Throw e s') →
       ∃ wpre w wpost tr0 s0,
         handlers_of s wildcard = wpre ++ w :: wpost
         ∧ invoke_each run (Wild type v) wpre s = (tr0, Ret s0)
         ∧ run w (Wild type v) s0 = Throw e s'
         ∧ tr = calls (Wild type v) (wpre ++ [w]))
  ∧ (handlers_of s wildcard = [] → emit run type v s = ([], Ret s)).
Proof.
  intros Hnone.
  assert (handlers_of s type = []) as Hempty.
  { destruct Hnone as [Hget | [l Hget]];
      [by apply handlers_of_None | by apply (handlers_of_Some _ _ _ _ Hget)]. }
  assert (emit run type v s = dispatch run wildcard (Wild type v) s) as Hemit.
  { unfold emit. rewrite dispatch_handlers_of, Hempty. simpl.
    by destruct (dispatch run wildcard (Wild type v) s). }
  split_and!.
  - done.
  - intros h x Hc. apply emit_call_inv in Hc as [[_ Hin]|(-> & tr1 & s1 & H1 & Hin)].
    + rewrite Hempty in Hin. by apply elem_of_nil in Hin.
    + rewrite dispatch_handlers_of, Hempty in H1. simpl in H1.
      injection H1 as _ <-. done.
  - intros wpre w wpost tr0 s0 Hsplit Hwpre.
    rewrite Hemit, dispatch_handlers_of, Hsplit.
    by eapply invoke_each_reaches.
  - intros Hret. rewrite Hemit, dispatch_handlers_of.
    by apply invoke_each_all_return.
  - intros tr s'. rewrite Hemit, dispatch_handlers_of.
    apply invoke_each_ret.
  - intros tr e s'. rewrite Hemit, dispatch_handlers_of. intros Hthrow.
    destruct (invoke_each_throw_inv _ _ _ _ _ _ Hthrow)
      as (wpre & w & wpost & tr0 & s0 & ? & ? & ? & ?).
    by exists wpre, w, wpost, tr0, s0.
  - intros Hwild. by rewrite Hemit, dispatch_handlers_of, Hwild.
Qed.



(** C4, as the code has it.  After [on(type, h1)], [on(type, h2)],
    [on(type, h3)], an [emit(type, v)] in which no handler throws has
    called, with the payload [v] and in this order, the handlers [type]
    held before and then [h1], [h2], [h3], once for each registration;
    every call after these is the call [h(type, v)] of a handler the
    wildcard key holds when the wildcard block starts.  There are no such
    calls when [type] is not ['*'] and does not share its array with
    ['*'], no wildcard handler is registered and the handlers called
    leave the wildcard sequence alone. *)
Theorem registration_order_is_call_order type h1 h2 h3 v s tr s' :
  emit run type v
    (fst (on (One type) h3 (fst (on (One type) h2 (fst (on (One type) h1 s))))))
  = (tr, Ret s') →
  ∃ s1,
    dispatch run type (Typed v)
      (fst (on (One type) h3 (fst (on (One type) h2 (fst (on (One type) h1 s))))))
    = (calls (Typed v) (handlers_of s type ++ [h1; h2; h3]), Ret s1)
    ∧ tr = calls (Typed v) (handlers_of s type ++ [h1; h2; h3])
           ++ calls (Wild type v) (handlers_of s1 wildcard)
    ∧ (type ≠ wildcard → ¬ same_array s type wildcard →
       handlers_of s wildcard = [] →
       (∀ h s0, h ∈ handlers_of s type ++ [h1; h2; h3] →
          handlers_of (state_of (run h (Typed v) s0)) wildcard
          = handlers_of s0 wildcard) →
       tr = calls (Typed v) (handlers_of s type ++ [h1; h2; h3])).
Proof.
  set (sa := fst (on (One type) h1 s)).
  set (sb := fst (on (One type) h2 sa)).
  set (sc := fst (on (One type) h3 sb)).
  assert (handlers_of sc type = handlers_of s type ++ [h1; h2; h3]) as Hseq.
  { unfold sc, sb, sa. rewrite !handlers_of_on_One. by rewrite <- !app_assoc. }
  intros Hemit. destruct (emit_ret _ _ _ _ _ Hemit) as (s1 & H1 & H2 & ->).
  rewrite Hseq in *. exists s1. split_and!; [done..|].
  intros Hne Hsep Hnil Hkeep.
  assert (handlers_of s1 wildcard = []) as ->; [|by rewrite app_nil_r].
  assert (handlers_of sc wildcard = []) as Hsc.
  { assert (∀ s0 h, ¬ same_array s0 type wildcard →
              handlers_of (fst (on (One type) h s0)) wildcard
              = handlers_of s0 wildcard
              ∧ ¬ same_array (fst (on (One type) h s0)) type wildcard) as Hstep.
    { intros s0 h Hs0. split.
      - change (fst (on (One type) h s0)) with (fst (_on type h s0)).
        rewrite handlers_of_on_any, decide_False; [done|].
        intros [?|?]; done.
      - change (fst (on (One type) h s0)) with (fst (_on type h s0)).
        by rewrite same_array_on. }
    destruct (Hstep s h1 Hsep) as [Ha Hsa].
    destruct (Hstep sa h2 Hsa) as [Hb Hsb].
    destruct (Hstep sb h3 Hsb) as [Hc _].
    unfold sc, sb, sa in *. by rewrite Hc, Hb, Ha. }
  rewrite dispatch_handlers_of, Hseq in H1.
  rewrite <- Hsc.
  eapply (invoke_each_keeps
            (λ s0, handlers_of s0 wildcard = handlers_of sc wildcard));
    [|reflexivity|exact H1].
  intros h' s0 Hh' Hs0. simpl. by rewrite Hkeep.
Qed.

(** C8.  For distinct types [a] and [b], one call [on([a, b], h)]
    pushes [h] onto the array of [a] and onto the array of [b] (so twice
    onto the one array when the two keys share it), after which an
    [emit(a, v)] and an [emit(b, v)] each call [h(v)] as soon as the
    handlers registered under that type before have returned.
    The function it returns calls [off(a, h)] and [off(b, h)]: it removes
    one occurrence of [h] from each of the two arrays, and invoked right
    after the registration, with [h] not registered under [a] or [b]
    before, it leaves both sequences as they were before [on]. *)
Theorem on_array_registers_under_each (a b : key) h s :
  a ≠ b →
  (handlers_of (fst (on (Many (literal [a; b])) h s)) a
     = handlers_of s a ++ replicate (reached s a b) h
   ∧ handlers_of (fst (on (Many (literal [a; b])) h s)) b
     = handlers_of s b ++ replicate (reached s a b) h)
  ∧ (∀ k v tr0 s0, k = a ∨ k = b →
       invoke_each run (Typed v) (handlers_of s k) (fst (on (Many (literal [a; b])) h s))
       = (tr0, Ret s0) →
       (h, Typed v) ∈ fst (emit run k v (fst (on (Many (literal [a; b])) h s))))
  ∧ (∀ s2, js_array (handlers_of s2 a) → js_array (handlers_of s2 b) →
       handlers_of (snd (on (Many (literal [a; b])) h s) s2) a
         = Nat.iter (reached s2 a b) (remove_first h) (handlers_of s2 a)
       ∧ handlers_of (snd (on (Many (literal [a; b])) h s) s2) b
         = Nat.iter (reached s2 a b) (remove_first h) (handlers_of s2 b))
  ∧ (js_array (handlers_of (fst (on (Many (literal [a; b])) h s)) a) →
     js_array (handlers_of (fst (on (Many (literal [a; b])) h s)) b) →
     h ∉ handlers_of s a → h ∉ handlers_of s b →
     handlers_of (snd (on (Many (literal [a; b])) h s) (fst (on (Many (literal [a; b])) h s))) a
       = handlers_of s a
     ∧ handlers_of (snd (on (Many (literal [a; b])) h s) (fst (on (Many (literal [a; b])) h s))) b
       = handlers_of s b).
Proof.
  intros Hne.
  destruct (handlers_of_on_pair a b h s Hne) as [Ha Hb].
  assert (0 < reached s a b) as Hpos.
  { unfold reached. destruct (decide (same_array s a b)); lia. }
  assert (∃ n, replicate (reached s a b) h = h :: replicate n h) as [n Hn].
  { destruct (reached s a b) as [|n]; [lia|]. by exists n. }
  split_and!.
  - done.
  - done.
  - intros k v tr0 s0 Hk Hold.
    destruct (emit_trace_typed k v (fst (on (Many (literal [a; b])) h s))) as [tr2 ->].
    apply elem_of_app. left.
    assert (handlers_of (fst (on (Many (literal [a; b])) h s)) k
            = handlers_of s k ++ h :: replicate n h) as ->.
    { rewrite <- Hn. by destruct Hk as [->| ->]. }
    by eapply invoke_each_reaches.
  - intros s2 Hja Hjb. rewrite on_pair_unsubscribe.
    by apply handlers_of_off_pair.
  - intros Hja Hjb Hna Hnb. rewrite on_pair_unsubscribe.
    destruct (handlers_of_off_pair a b h _ Hja Hjb) as [-> ->].
    rewrite reached_on_pair, Ha, Hb by done.
    by rewrite !remove_first_replicate.
Qed.

(** X1.  Whatever the handlers do to the registry while a block of [emit]
    runs, the calls of the block are those of the handlers its key held
    when the block started, in order: of all of them when the block
    completes, and otherwise of those up to and including the handler
    that threw, the ones before it having returned; what that handler
    threw, and the state it left, are the block's outcome. *)
Theorem dispatch_calls_snapshot_prefix k x s tr o :
  dispatch run k x s = (tr, o) →
  match o with
  | Ret _ => tr = calls x (handlers_of s k)
  | Throw e s' =>
      ∃ pre h post tr0 s0,
        handlers_of s k = pre ++ h :: post
        ∧ invoke_each run x pre s = (tr0, Ret s0)
        ∧ run h x s0 = Throw e s'
        ∧ tr = calls x (pre ++ [h])
  end.
Proof.
  rewrite dispatch_handlers_of. destruct o as [s'|e s']; intros Hrun.
  - by eapply invoke_each_ret.
  - destruct (invoke_each_throw_inv _ _ _ _ _ _ Hrun)
      as (pre & h & post & tr0 & s0 & ? & ? & ? & ?).
    by exists pre, h, post, tr0, s0.
Qed.

(** X2.  [emit] changes nothing itself: where the handlers leave the state
    as they find it, [emit] returns in the state it started in, having
    called the type-matched and then the wildcard handlers. *)
Theorem emit_has_no_effect_of_its_own type v s :
  (∀ h x s0, run h x s0 = Ret s0) →
  emit run type v s
  = (calls (Typed v) (handlers_of s type)
     ++ calls (Wild type v) (handlers_of s wildcard), Ret s).
Proof.
  intros Hinert.
  assert (∀ x hs, invoke_each run x hs s = (calls x hs, Ret s)) as Hall.
  { intros x hs. induction hs as [|h hs IH]; [done|].
    simpl. by rewrite Hinert, IH. }
  by rewrite emit_blocks, !Hall.
Qed.

(** X3.  The scenario of the specification: on a new emitter,
    [on('login', a); on('login', b); on('*', w)] and then
    [emit('login', v)] call [a(v)], [b(v)], [w('login', v)], in this
    order, when [a] and [b] leave the wildcard sequence alone and no
    handler throws. *)
Theorem login_scenario (a b w : handler) v (u : world) tr s' :
  (∀ h s0, h ∈ [a; b] →
     handlers_of (state_of (run h (Typed v) s0)) wildcard
     = handlers_of s0 wildcard) →
  emit run "login" v
    (fst (on (One wildcard) w
       (fst (on (One "login"%string) b
          (fst (on (One "login"%string) a (mitt None u)))))))
  = (tr, Ret s') →
  tr = [(a, Typed v); (b, Typed v); (w, Wild "login" v)].
Proof.
  intros Hkeep Hemit.
  destruct (emit_ret _ _ _ _ _ Hemit) as (s1 & H1 & _ & ->).
  rewrite dispatch_handlers_of in H1.
  assert (handlers_of s1 wildcard = [w]) as ->; [|done].
  change [w] with
    (handlers_of (fst (on (One wildcard) w
       (fst (on (One "login"%string) b
          (fst (on (One "login"%string) a (mitt None u))))))) wildcard).
  eapply (invoke_each_keeps
            (λ s0, handlers_of s0 wildcard
                   = handlers_of (fst (on (One wildcard) w
                       (fst (on (One "login"%string) b
                          (fst (on (One "login"%string) a (mitt None u)))))))
                       wildcard));
    [|reflexivity|exact H1].
  intros h s0 Hh Hs0. cbn beta. rewrite <- Hs0. by apply Hkeep.
Qed.

(** X11.  Whatever happens in it, [emit(type, v)] calls no handler but
    those registered: a call it makes is either [h(v)] for a handler [h]
    that [type] held when [emit] started, or [h(type, v)] for a handler
    that the wildcard key held when the type-matched block had
    completed.  In particular it passes on no other payload and, after
    a throw in the type-matched block, calls no wildcard handler. *)
Theorem emit_calls_only_registered_handlers type v s h x :
  (h, x) ∈ fst (emit run type v s) →
  (x = Typed v ∧ h ∈ handlers_of s type)
  ∨ (x = Wild type v
     ∧ ∃ tr1 s1,
         dispatch run type (Typed v) s = (tr1, Ret s1)
         ∧ h ∈ handlers_of s1 wildcard).
Proof. apply emit_call_inv. Qed.

(** X13.  A handler that was unsubscribed is not called: after
    [off(type, h)] has removed the only registration of [h] under
    [type], the next [emit(type, v)] does not call [h(v)], whether it
    returns or throws and whatever its handlers do, also when one of
    them registers [h] under [type] again while it runs. *)
Theorem removed_handler_is_not_called type v s h :
  js_array (handlers_of s type) →
  occurrences h (handlers_of s type) ≤ 1 →
  (h ∉ handlers_of (off type (Some h) s) type)
  ∧ (h, Typed v) ∉ fst (emit run type v (off type (Some h) s)).
Proof.
  intros Hjs Honce.
  assert (h ∉ handlers_of (off type (Some h) s) type) as Hnot.
  { apply occurrences_absent.
    rewrite handlers_of_off, occurrences_remove_first by done. lia. }
  split; [done|].
  intros [[_ Hin]|[Hx _]]%emit_call_inv; done.
Qed.


End EmitFacts.

(** ** The theorems at concrete emitters *)

Section Concrete.

Import Scenario.

Local Open Scope string_scope.

(** [off('a', 1)] where ['a'] holds handlers 1, 2, 1: the first 1 goes,
    and a second call removes the other. *)
Lemma off_removes_first_occurrence_witness :
  get twice_emitter "a" = Some (1%positive, [1; 2; 1])
  ∧ js_array [1; 2; 1]
  ∧ handlers_of (off "a" (Some 1) twice_emitter) "a" = [2; 1]
  ∧ handlers_of (off "a" (Some 1) (off "a" (Some 1) twice_emitter)) "a" = [2].
Proof.
  assert (get twice_emitter "a" = Some (1%positive, [1; 2; 1])) as Hget
    by (vm_compute; reflexivity).
  assert (js_array [1; 2; 1]) as Hjs
    by (unfold js_array, max_array_length; simpl; lia).
  destruct (off_removes_first_occurrence twice_emitter "a" _ _ 1 Hget Hjs)
    as (Hfirst & _ & _ & _ & _).
  split_and!; [exact Hget | exact Hjs | |].
  - exact (handlers_of_Some _ _ _ _ Hfirst).
  - vm_compute. reflexivity.
Defined.



(** C4 fails where a handler throws, and where a handler is registered
    more than once.  After [on('a', 1)], [on('a', 2)], [on('a', 3)] on a
    new emitter, with a handler 2 that throws, [emit('a', 7)] calls
    [1(7)] and [2(7)] and throws: handler 3 is not called.  After
    [on('a', 1)], [on('a', 1)], [on('a', 2)], with handlers that do
    nothing, [emit('a', 7)] calls handler 1 twice. *)
Lemma throwing_handler_hides_later_registrations :
  handlers_of (register [("a", 1); ("a", 2); ("a", 3)] fresh_emitter) "a"
  = [1; 2; 3]
  ∧ emit (throwing 2 "boom") "a" 7
      (register [("a", 1); ("a", 2); ("a", 3)] fresh_emitter)
    = ([(1, Typed 7); (2, Typed 7)],
       Throw "boom" (register [("a", 1); ("a", 2); ("a", 3)] fresh_emitter))
  ∧ (∀ x, (3, x) ∉ fst (emit (throwing 2 "boom") "a" 7
                          (register [("a", 1); ("a", 2); ("a", 3)]
                             fresh_emitter)))
  ∧ emit inert "a" 7 (register [("a", 1); ("a", 1); ("a", 2)] fresh_emitter)
    = ([(1, Typed 7); (1, Typed 7); (2, Typed 7)],
       Ret (register [("a", 1); ("a", 1); ("a", 2)] fresh_emitter)).
Proof.
  split_and!; [by vm_compute | by vm_compute | | by vm_compute].
  intros x Hx. vm_compute in Hx.
  apply elem_of_cons in Hx as [Hx|Hx]; [discriminate Hx|].
  apply elem_of_cons in Hx as [Hx|Hx]; [discriminate Hx|].
  by apply elem_of_nil in Hx.
Qed.

(** [on('a', 1); on('a', 2); on('a', 3); emit('a', 7)] on a new
    emitter. *)
Lemma registration_order_is_call_order_witness :
  emit inert "a" 7 (register [("a", 1); ("a", 2); ("a", 3)] fresh_emitter)
  = ([(1, Typed 7); (2, Typed 7); (3, Typed 7)],
     Ret (register [("a", 1); ("a", 2); ("a", 3)] fresh_emitter))
  ∧ ∃ s1 : st,
      fst (emit inert "a" 7 (register [("a", 1); ("a", 2); ("a", 3)] fresh_emitter))
      = (calls (Typed 7) ([] ++ [1; 2; 3])
         ++ calls (Wild "a" 7) (handlers_of s1 "*"))%list.
Proof.
  assert (emit inert "a" 7 (register [("a", 1); ("a", 2); ("a", 3)] fresh_emitter)
          = ([(1, Typed 7); (2, Typed 7); (3, Typed 7)],
             Ret (register [("a", 1); ("a", 2); ("a", 3)] fresh_emitter)))
    as Hemit by (vm_compute; reflexivity).
  split; [exact Hemit|].
  destruct (registration_order_is_call_order inert "a" 1 2 3 7 fresh_emitter
              _ _ Hemit) as (s1 & _ & Htr & _).
  exists s1. exact Htr.
Defined.

(** [emit('login', 7)] with handlers 1 and 2 under ['login'] and the
    wildcard handler 3. *)
Lemma typed_handlers_before_wildcard_witness :
  emit inert "login" 7 login_emitter
  = ([(1, Typed 7); (2, Typed 7); (3, Wild "login" 7)], Ret login_emitter)
  ∧ ∃ tr_a tr_b tr_c,
      [(1, Typed 7); (2, Typed 7); (3, Wild "login" 7)]
      = (tr_a ++ (2, Typed 7) :: tr_b ++ (3, Wild "login" 7) :: tr_c)%list.
Proof.
  assert (emit inert "login" 7 login_emitter
          = ([(1, Typed 7); (2, Typed 7); (3, Wild "login" 7)],
             Ret login_emitter)) as Hemit by (vm_compute; reflexivity).
  split; [exact Hemit|].
  destruct (typed_handlers_before_wildcard inert "login" 7 login_emitter
              _ _ Hemit) as (s1 & H1 & _ & _ & Hbefore & _).
  assert (s1 = final (dispatch inert "login" (Typed 7) login_emitter))
    as -> by by rewrite H1.
  apply Hbefore; compute_done.
Defined.

(** With handlers 1, 2, 3 under ['a'] and wildcard handlers 4, 5, 6: a
    throw of 2 leaves out 3 and the wildcard block; a throw of 5 leaves
    out 6. *)
Lemma throwing_handler_ends_emit_witness :
  emit (throwing 2 "boom") "a" 7 busy_emitter
  = ([(1, Typed 7); (2, Typed 7)], Throw "boom" busy_emitter)
  ∧ emit (throwing 5 "boom") "a" 7 busy_emitter
    = ([(1, Typed 7); (2, Typed 7); (3, Typed 7);
        (4, Wild "a" 7); (5, Wild "a" 7)],
       Throw "boom" busy_emitter).
Proof.
  split.
  - destruct (throwing_handler_ends_emit (throwing 2 "boom") "a" 7 busy_emitter)
      as [Htyped _].
    apply (Htyped 1%positive [1] 2 [3] [(1, Typed 7)] busy_emitter
             "boom" busy_emitter); vm_compute; reflexivity.
  - destruct (throwing_handler_ends_emit (throwing 5 "boom") "a" 7 busy_emitter)
      as [_ Hwild].
    apply (Hwild [(1, Typed 7); (2, Typed 7); (3, Typed 7)] busy_emitter
             2%positive [4] 5 [6] [(4, Wild "a" 7)] busy_emitter
             "boom" busy_emitter); vm_compute; reflexivity.
Defined.

(** [off('a')] on the same emitter, and the [emit('a', 7)] after it. *)
Lemma off_without_handler_empties_type_witness :
  get busy_emitter "a" = Some (1%positive, [1; 2; 3])
  ∧ handlers_of (off "a" None busy_emitter) "a" = []
  ∧ get (off "a" None busy_emitter) "*" = Some (2%positive, [4; 5; 6])
  ∧ fst (emit inert "a" 7 (off "a" None busy_emitter))
    = [(4, Wild "a" 7); (5, Wild "a" 7); (6, Wild "a" 7)].
Proof.
  assert (get busy_emitter "a" = Some (1%positive, [1; 2; 3])) as Hget
    by (vm_compute; reflexivity).
  destruct (off_without_handler_empties_type inert "a" busy_emitter _ _ Hget)
    as (Hnew & _ & Hframe & _ & _ & Hemit).
  split_and!.
  - exact Hget.
  - exact (handlers_of_Some _ _ _ _ Hnew).
  - rewrite Hframe by done. vm_compute. reflexivity.
  - rewrite Hemit by done. vm_compute. reflexivity.
Defined.

(** [emit('unregistered', 7)] with handlers 1 and 2 under ['login'] and
    the wildcard handler 3: it calls [3('unregistered', 7)].  On a new
    emitter it calls nothing. *)
Lemma emit_without_handlers_witness :
  (get login_emitter "unregistered" = None
   ∨ ∃ l, get login_emitter "unregistered" = Some (l, []))
  ∧ emit inert "unregistered" 7 login_emitter
    = ([(3, Wild "unregistered" 7)], Ret login_emitter)
  ∧ (get fresh_emitter "unregistered" = None
     ∨ ∃ l, get fresh_emitter "unregistered" = Some (l, []))
  ∧ emit inert "unregistered" 7 fresh_emitter = ([], Ret fresh_emitter).
Proof.
  assert (get login_emitter "unregistered" = None
          ∨ ∃ l, get login_emitter "unregistered" = Some (l, [])) as Hlogin
    by (left; vm_compute; reflexivity).
  assert (get fresh_emitter "unregistered" = None
          ∨ ∃ l, get fresh_emitter "unregistered" = Some (l, [])) as Hfresh
    by (left; vm_compute; reflexivity).
  split_and!; [exact Hlogin | | exact Hfresh |].
  - destruct (emit_without_handlers inert "unregistered" 7 login_emitter Hlogin)
      as (Hblock & _ & _ & Hall & _).
    destruct Hall as [s' Hemit]; [by intros w s0 _; exists s0|].
    rewrite Hemit. rewrite Hblock in Hemit. vm_compute in Hemit.
    injection Hemit as <-. vm_compute. reflexivity.
  - destruct (emit_without_handlers inert "unregistered" 7 fresh_emitter Hfresh)
      as (_ & _ & _ & _ & _ & _ & Hnothing).
    apply Hnothing. vm_compute. reflexivity.
Defined.



(** C3 fails where a handler is registered twice: after
    [const u = on('a', 1); on('a', 1)], the first [u()] removes one
    registration and the second [u()] removes the other. *)
Lemma second_unsubscribe_removes_second_registration :
  handlers_of registered_twice "a" = [1; 1]
  ∧ handlers_of (first_unsubscribe registered_twice) "a" = [1]
  ∧ handlers_of (first_unsubscribe (first_unsubscribe registered_twice)) "a"
    = []
  ∧ first_unsubscribe (first_unsubscribe registered_twice)
    ≠ first_unsubscribe registered_twice.
Proof.
  split_and!; [by vm_compute..|].
  intros Heq. apply (f_equal (λ s, handlers_of s "a")) in Heq.
  vm_compute in Heq. discriminate.
Qed.

(** [const u = on(['a', 'b'], 3)] with handlers 1 and 2 under ['a']:
    [u()] removes 3 from both types, and a second [u()] changes
    nothing. *)
Lemma unsubscribe_once_then_noop_witness :
  (∀ t, t ∈ ["a"; "b"] →
     js_array
       (handlers_of (fst (on (Many (literal ["a"; "b"])) 3 pair_emitter)) t))
  ∧ handlers_of (fst (on (Many (literal ["a"; "b"])) 3 pair_emitter)) "a"
    = [1; 2; 3]
  ∧ handlers_of (fst (on (Many (literal ["a"; "b"])) 3 pair_emitter)) "b" = [3]
  ∧ (∀ t, t ∈ ["a"; "b"] →
       3 ∉ handlers_of
             (snd (on (Many (literal ["a"; "b"])) 3 pair_emitter)
                (fst (on (Many (literal ["a"; "b"])) 3 pair_emitter))) t)
  ∧ snd (on (Many (literal ["a"; "b"])) 3 pair_emitter)
      (snd (on (Many (literal ["a"; "b"])) 3 pair_emitter)
         (fst (on (Many (literal ["a"; "b"])) 3 pair_emitter)))
    = snd (on (Many (literal ["a"; "b"])) 3 pair_emitter)
        (fst (on (Many (literal ["a"; "b"])) 3 pair_emitter)).
Proof.
  assert (∀ t, t ∈ ["a"; "b"] →
            js_array
              (handlers_of (fst (on (Many (literal ["a"; "b"])) 3 pair_emitter)) t))
    as Hjs.
  { intros t [->|[->|[]%elem_of_nil]%elem_of_cons]%elem_of_cons; compute_done. }
  destruct (unsubscribe_once_then_noop pair_emitter
              (Many (literal ["a"; "b"])) 3
              (fst (on (Many (literal ["a"; "b"])) 3 pair_emitter)) Hjs)
    as (_ & _ & _ & _ & _ & Honce & _).
  destruct Honce as [Hgone Hnoop].
  { intros t [->|[->|[]%elem_of_nil]%elem_of_cons]%elem_of_cons; compute_done. }
  split_and!; [exact Hjs | by vm_compute | by vm_compute | exact Hgone
              | exact Hnoop].
Defined.

(** [on(['a', 'b'], 3)] with handlers 1 and 2 under ['a']. *)
Lemma on_array_registers_under_each_witness :
  "a" ≠ "b"
  ∧ handlers_of (fst (on (Many (literal ["a"; "b"])) 3 pair_emitter)) "a" = [1; 2; 3]
  ∧ handlers_of (fst (on (Many (literal ["a"; "b"])) 3 pair_emitter)) "b" = [3]
  ∧ (3, Typed 7)
    ∈ fst (emit inert "a" 7 (fst (on (Many (literal ["a"; "b"])) 3 pair_emitter)))
  ∧ (3, Typed 7)
    ∈ fst (emit inert "b" 7 (fst (on (Many (literal ["a"; "b"])) 3 pair_emitter)))
  ∧ handlers_of
      (snd (on (Many (literal ["a"; "b"])) 3 pair_emitter)
         (fst (on (Many (literal ["a"; "b"])) 3 pair_emitter))) "a" = [1; 2]
  ∧ handlers_of
      (snd (on (Many (literal ["a"; "b"])) 3 pair_emitter)
         (fst (on (Many (literal ["a"; "b"])) 3 pair_emitter))) "b" = [].
Proof.
  assert ("a" ≠ "b") as Hne by done.
  destruct (on_array_registers_under_each inert "a" "b" 3 pair_emitter Hne)
    as ([Ha Hb] & Hemit & _ & Hback).
  destruct Hback as [Hbacka Hbackb]; [compute_done..|].
  split_and!.
  - exact Hne.
  - exact Ha.
  - exact Hb.
  - apply (Hemit "a" 7 [(1, Typed 7); (2, Typed 7)]
             (fst (on (Many (literal ["a"; "b"])) 3 pair_emitter)));
      [by left | vm_compute; reflexivity].
  - apply (Hemit "b" 7 [] (fst (on (Many (literal ["a"; "b"])) 3 pair_emitter)));
      [by right | vm_compute; reflexivity].
  - exact Hbacka.
  - exact Hbackb.
Defined.

(** Handler 1 under ['a'] calls [off('a', 2)]: handler 2 is still
    called in this pass, and is gone after it.  With handlers 1, 2, 3
    under ['a'] and a handler 2 that throws, the pass calls 1 and 2. *)
Lemma dispatch_calls_snapshot_prefix_witness :
  dispatch (removing 1 "a" 2) "a" (Typed 7) pair_emitter
  = ([(1, Typed 7); (2, Typed 7)], Ret (off "a" (Some 2) pair_emitter))
  ∧ handlers_of (off "a" (Some 2) pair_emitter) "a" = [1]
  ∧ [(1, Typed 7); (2, Typed 7)]
    = calls (Typed 7) (handlers_of pair_emitter "a")
  ∧ dispatch (throwing 2 "boom") "a" (Typed 7) busy_emitter
    = ([(1, Typed 7); (2, Typed 7)], Throw "boom" busy_emitter)
  ∧ ∃ pre h post (tr0 : list (call nat)) (s0 : st),
      handlers_of busy_emitter "a" = (pre ++ h :: post)%list
      ∧ invoke_each (throwing 2 "boom") (Typed 7) pre busy_emitter
        = (tr0, Ret s0)
      ∧ throwing 2 "boom" h (Typed 7) s0 = Throw "boom" busy_emitter
      ∧ [(1, Typed 7); (2, Typed 7)] = calls (Typed 7) (pre ++ [h])%list.
Proof.
  assert (dispatch (removing 1 "a" 2) "a" (Typed 7) pair_emitter
          = ([(1, Typed 7); (2, Typed 7)],
             Ret (off "a" (Some 2) pair_emitter))) as Hrun
    by (vm_compute; reflexivity).
  assert (dispatch (throwing 2 "boom") "a" (Typed 7) busy_emitter
          = ([(1, Typed 7); (2, Typed 7)], Throw "boom" busy_emitter))
    as Hthrow by (vm_compute; reflexivity).
  split_and!; [exact Hrun | by vm_compute | | exact Hthrow |].
  - exact (dispatch_calls_snapshot_prefix (removing 1 "a" 2) "a" (Typed 7)
             pair_emitter _ _ Hrun).
  - exact (dispatch_calls_snapshot_prefix (throwing 2 "boom") "a" (Typed 7)
             busy_emitter _ _ Hthrow).
Defined.

(** [emit('a', 7)] with handlers that do nothing. *)
Lemma emit_has_no_effect_of_its_own_witness :
  (∀ h x s0, inert h x s0 = Ret s0)
  ∧ emit inert "a" 7 busy_emitter
    = ([(1, Typed 7); (2, Typed 7); (3, Typed 7);
        (4, Wild "a" 7); (5, Wild "a" 7); (6, Wild "a" 7)],
       Ret busy_emitter).
Proof.
  assert (∀ h x s0, inert h x s0 = Ret s0) as Hinert by done.
  split; [exact Hinert|].
  exact (emit_has_no_effect_of_its_own inert "a" 7 busy_emitter Hinert).
Defined.

(** The scenario with handlers 1, 2, 3 that do nothing. *)
Lemma login_scenario_witness :
  emit inert "login" 7 login_emitter
  = ([(1, Typed 7); (2, Typed 7); (3, Wild "login" 7)], Ret login_emitter)
  ∧ fst (emit inert "login" 7 login_emitter)
    = [(1, Typed 7); (2, Typed 7); (3, Wild "login" 7)].
Proof.
  assert (emit inert "login" 7 login_emitter
          = ([(1, Typed 7); (2, Typed 7); (3, Wild "login" 7)],
             Ret login_emitter)) as Hemit by (vm_compute; reflexivity).
  split; [exact Hemit|].
  apply (login_scenario inert 1 2 3 7 tt _ login_emitter); [done|].
  rewrite Hemit. vm_compute. reflexivity.
Defined.

(** [on(['a', 'a', 'b'], 3)] with handlers 1 and 2 under ['a']: 3 is
    registered twice under ['a'] and once under ['b']. *)
Lemma on_pushes_once_per_listed_type_witness :
  handlers_of (fst (on (Many (literal ["a"; "a"; "b"])) 3 pair_emitter)) "a"
  = [1; 2; 3; 3]
  ∧ handlers_of (fst (on (Many (literal ["a"; "a"; "b"])) 3 pair_emitter)) "b" = [3]
  ∧ handlers_of (fst (on (Many (literal [])) 3 pair_emitter)) "a" = [1; 2].
Proof.
  split_and!.
  - exact (proj1 (on_pushes_once_per_listed_type pair_emitter
                    (Many (literal ["a"; "a"; "b"])) 3 "a")).
  - exact (proj1 (on_pushes_once_per_listed_type pair_emitter
                    (Many (literal ["a"; "a"; "b"])) 3 "b")).
  - exact (proj1 (on_pushes_once_per_listed_type pair_emitter (Many (literal [])) 3 "a")).
Defined.

(** [const types = ['a']; on('b', 3); const u = on(types, 3);
    types.push('b'); u()]: the array lists ['b'] when [u] runs, so [u]
    removes handler 3 from ['b'] as well as from ['a'].  And the
    function [on(['a', 'a', 'b'], 3)] returns removes both registrations
    under ['a'] and the one under ['b']. *)
Lemma unsubscribe_removes_once_per_listed_type_witness :
  user grown_array = ["a"; "b"]
  ∧ (∀ t, t ∈ types_of held grown_array → js_array (handlers_of grown_array t))
  ∧ handlers_of grown_array "a" = [3]
  ∧ handlers_of grown_array "b" = [3]
  ∧ handlers_of (grown_unsubscribe grown_array) "a" = []
  ∧ handlers_of (grown_unsubscribe grown_array) "b" = []
  ∧ (∀ t, t ∈ ["a"; "a"; "b"] →
       js_array
         (handlers_of
            (fst (on (Many (literal ["a"; "a"; "b"])) 3 pair_emitter)) t))
  ∧ handlers_of
      (snd (on (Many (literal ["a"; "a"; "b"])) 3 pair_emitter)
         (fst (on (Many (literal ["a"; "a"; "b"])) 3 pair_emitter))) "a" = [1; 2]
  ∧ handlers_of
      (snd (on (Many (literal ["a"; "a"; "b"])) 3 pair_emitter)
         (fst (on (Many (literal ["a"; "a"; "b"])) 3 pair_emitter))) "b" = [].
Proof.
  assert (∀ t, t ∈ types_of held grown_array →
            js_array (handlers_of grown_array t)) as Hlive.
  { intros t
      [->|[->|[]%elem_of_nil]%elem_of_cons]%elem_of_cons; compute_done. }
  assert (∀ t, t ∈ ["a"; "a"; "b"] →
            js_array
              (handlers_of
                 (fst (on (Many (literal ["a"; "a"; "b"])) 3 pair_emitter)) t))
    as Hjs.
  { intros t
      [->|[->|[->|[]%elem_of_nil]%elem_of_cons]%elem_of_cons]%elem_of_cons;
      compute_done. }
  split_and!;
    [by vm_compute | exact Hlive | by vm_compute | by vm_compute
    | | | exact Hjs | |].
  - exact (proj1 (unsubscribe_removes_once_per_listed_type
                    (fst (on (One "b") 3 (holding ["a"]))) held 3
                    grown_array "a" Hlive)).
  - exact (proj1 (unsubscribe_removes_once_per_listed_type
                    (fst (on (One "b") 3 (holding ["a"]))) held 3
                    grown_array "b" Hlive)).
  - exact (proj1 (unsubscribe_removes_once_per_listed_type pair_emitter
                    (Many (literal ["a"; "a"; "b"])) 3 _ "a" Hjs)).
  - exact (proj1 (unsubscribe_removes_once_per_listed_type pair_emitter
                    (Many (literal ["a"; "a"; "b"])) 3 _ "b" Hjs)).
Defined.

(** [const u = on(['a', 'b'], 3); u()] with handlers 1 and 2 under
    ['a']. *)
Lemma on_then_unsubscribe_restores_witness :
  (∀ t, t ∈ ["a"; "b"] → 3 ∉ handlers_of pair_emitter t)
  ∧ (∀ k,
       handlers_of
         (snd (on (Many (literal ["a"; "b"])) 3 pair_emitter)
            (fst (on (Many (literal ["a"; "b"])) 3 pair_emitter))) k
       = handlers_of pair_emitter k).
Proof.
  assert (∀ t, t ∈ ["a"; "b"] → 3 ∉ handlers_of pair_emitter t) as Hnot.
  { intros t [->|[->|[]%elem_of_nil]%elem_of_cons]%elem_of_cons; compute_done. }
  split; [exact Hnot|].
  apply (on_then_unsubscribe_restores pair_emitter (Many (literal ["a"; "b"])) 3 Hnot).
  intros t [->|[->|[]%elem_of_nil]%elem_of_cons]%elem_of_cons; compute_done.
Defined.

(** [const u = on('a', 1); u()] on a new emitter leaves ['a'] in the
    [Map], with an empty array. *)
Lemma keys_are_never_deleted_witness :
  get fresh_emitter "a" = None
  ∧ get (snd (on (One "a") 1 fresh_emitter) (fst (on (One "a") 1 fresh_emitter)))
      "a"
    = Some (1%positive, []).
Proof.
  assert (get fresh_emitter "a" = None) as Hget by (vm_compute; reflexivity).
  split; [exact Hget|].
  destruct (keys_are_never_deleted fresh_emitter (One "a") "a" 1 None)
    as (_ & _ & _ & Hleft).
  exact (Hleft Hget).
Defined.


(** With one array [[1]] under ['a'] and ['b']: [off('a'); on('a', 5)]
    gives ['a'] the sequence [[5]] and leaves ['b'] with [[1]]. *)
Lemma off_then_on_starts_anew_witness :
  get (shared_array "a" "b" [1]) "a" = Some (1%positive, [1])
  ∧ handlers_of
      (fst (on (One "a") 5 (off "a" None (shared_array "a" "b" [1])))) "a"
    = [5]
  ∧ handlers_of
      (fst (on (One "a") 5 (off "a" None (shared_array "a" "b" [1])))) "b"
    = [1].
Proof.
  assert (get (shared_array "a" "b" [1]) "a" = Some (1%positive, [1])) as Hget
    by (vm_compute; reflexivity).
  destruct (off_then_on_starts_anew (shared_array "a" "b" [1]) "a" _ _ 5 Hget)
    as [Hnew Hframe].
  split_and!; [exact Hget | exact Hnew |].
  destruct (Hframe "b") as [Hb _]; [done|].
  exact Hb.
Defined.

(** A wildcard call made by [emit('a', 7)] is the call of a handler
    under ['*']. *)
Lemma emit_calls_only_registered_handlers_witness :
  (5, Wild "a" 7) ∈ fst (emit inert "a" 7 busy_emitter)
  ∧ ∃ (tr1 : list (call nat)) (s1 : st),
      dispatch inert "a" (Typed 7) busy_emitter = (tr1, Ret s1)
      ∧ 5 ∈ handlers_of s1 "*".
Proof.
  assert ((5, Wild "a" 7) ∈ fst (emit inert "a" 7 busy_emitter)) as Hcall
    by (vm_compute; do 4 apply list_elem_of_further; apply list_elem_of_here).
  split; [exact Hcall|].
  destruct (emit_calls_only_registered_handlers inert "a" 7 busy_emitter
              5 (Wild "a" 7) Hcall) as [[Hx _]|[_ Hreg]].
  - discriminate Hx.
  - exact Hreg.
Defined.

(** [off('a', 1)] where ['a'] holds 1, 2, 1: handler 2 stays. *)
Lemma off_keeps_other_handlers_witness :
  js_array (handlers_of twice_emitter "a")
  ∧ filter (λ x, x ≠ 1) (handlers_of (off "a" (Some 1) twice_emitter) "a")
    = filter (λ x, x ≠ 1) (handlers_of twice_emitter "a")
  ∧ handlers_of (off "a" (Some 1) twice_emitter) "a" = [2; 1].
Proof.
  assert (js_array (handlers_of twice_emitter "a")) as Hjs by compute_done.
  split_and!; [exact Hjs | | by vm_compute].
  exact (proj1 (off_keeps_other_handlers twice_emitter "a" 1 "a" Hjs)).
Defined.

(** After [off('a', 2)], handler 1 registers 2 again while
    [emit('a', 7)] runs: 2 is not called in that [emit]. *)
Lemma removed_handler_is_not_called_witness :
  js_array (handlers_of pair_emitter "a")
  ∧ (occurrences 2 (handlers_of pair_emitter "a") ≤ 1)%nat
  ∧ emit (registering 1 "a" 2) "a" 7 (off "a" (Some 2) pair_emitter)
    = ([(1, Typed 7)], Ret pair_emitter)
  ∧ (2, Typed 7)
    ∉ fst (emit (registering 1 "a" 2) "a" 7 (off "a" (Some 2) pair_emitter)).
Proof.
  assert (js_array (handlers_of pair_emitter "a")) as Hjs by compute_done.
  assert (occurrences 2 (handlers_of pair_emitter "a") ≤ 1)%nat as Honce
    by compute_done.
  split_and!; [exact Hjs | exact Honce | by vm_compute |].
  exact (proj2 (removed_handler_is_not_called (registering 1 "a" 2)
                  "a" 7 pair_emitter 2 Hjs Honce)).
Defined.

(** With one array under both keys, [on(['a', 'b'], 5)] pushes twice
    onto it, [off('a')] leaves it to ['b'], and [off('a', 1)] removes
    from it for ['b'] as well. *)
Example shared_array_behaviour :
  handlers_of (fst (on (Many (literal ["a"; "b"])) 5 (shared_array "a" "b" [1]))) "a"
  = [1; 5; 5]
  ∧ handlers_of (off "a" None (shared_array "a" "b" [1])) "b" = [1]
  ∧ handlers_of (off "a" (Some 1) (shared_array "a" "b" [1])) "b" = [].
Proof. split_and!; by vm_compute. Qed.

End Concrete.

End Mitt.
